(** * BTFS: piece-window scheduler, read decomposition and read tracking

    A shallow embedding of [src/btfs.cc].  The torrent engine (libtorrent)
    is an external collaborator: what the program asks of it
    ([num_pieces], [piece_length], [have_piece], [map_file], ...) is read
    from an [engine] value, and what the program tells it
    ([piece_priority], [read_piece], ...) is recorded, newest first, in the
    [calls] log of the program state. *)

From Stdlib Require Import ZArith List Bool Lia Ascii.
From stdpp Require Import base option list gmap strings.
From stdpp Require Import sorting.

Local Open Scope Z_scope.

(** ** C++ [int] and the outcome of running a piece of code *)

Definition INT_MIN : Z := -2147483648.
Definition INT_MAX : Z := 2147483647.

Definition in_int (z : Z) : bool := (INT_MIN <=? z) && (z <=? INT_MAX).

(** Narrowing conversion to [int] ([int(x)], or passing a 64-bit value to
    an [int] parameter): reduction modulo 2^32 into the signed range. *)
Definition to_int (z : Z) : Z := (z + 2147483648) mod 4294967296 - 2147483648.

(** A run either completes with a value, or leaves defined behaviour
    (signed [int] overflow, indexing a file that does not exist), or
    exhausts the iteration bound the model gives to a loop. *)
Inductive result (A : Type) : Type :=
| Ok (a : A)
| Undefined
| OutOfFuel.
Arguments Ok {A} a.
Arguments Undefined {A}.
Arguments OutOfFuel {A}.

#[global] Instance result_ret : MRet result := fun A a => Ok a.
#[global] Instance result_bind : MBind result := fun A B f m =>
  match m with
  | Ok a => f a
  | Undefined => Undefined
  | OutOfFuel => OutOfFuel
  end.

(** The value of an [int] expression: undefined once it leaves the range. *)
Definition int (z : Z) : result Z := if in_int z then Ok z else Undefined.

(** ** Torrent metadata, as libtorrent's [torrent_info] presents it *)

Record file_entry := mk_file_entry {
  fe_path : string;
  fe_offset : Z;          (* byte offset of the file inside the torrent *)
  fe_size : Z
}.

Record torrent_info := mk_torrent_info {
  piece_length : Z;
  num_pieces : Z;
  total_size : Z;
  ti_files : list file_entry
}.

Definition num_files (ti : torrent_info) : Z := Z.of_nat (List.length (ti_files ti)).

Definition file_at (ti : torrent_info) (index : Z) : result file_entry :=
  if (0 <=? index) && (index <? num_files ti) then
    match ti_files ti !! Z.to_nat index with
    | Some f => Ok f
    | None => Undefined
    end
  else Undefined.

Record peer_request := mk_peer_request {
  piece : Z;
  start : Z;
  length : Z
}.

(** [file_storage::map_file]: 64-bit arithmetic, truncating division. *)
Definition map_file (ti : torrent_info) (file_index file_offset size : Z)
  : peer_request :=
  if (file_index <? 0) || (num_files ti <=? file_index) then
    mk_peer_request (num_pieces ti) 0 0
  else
    let offset := file_offset +
      match ti_files ti !! Z.to_nat file_index with
      | Some f => fe_offset f
      | None => 0
      end in
    if total_size ti <=? offset then mk_peer_request (num_pieces ti) 0 0
    else
      mk_peer_request
        (to_int (Z.quot offset (piece_length ti)))
        (to_int (Z.rem offset (piece_length ti)))
        (if total_size ti <? offset + size
         then to_int (total_size ti - offset) else size).

(** [file_storage::piece_size]: every piece has [piece_length] bytes but
    the last, which holds what is left. *)
Definition piece_size (ti : torrent_info) (index : Z) : Z :=
  if index =? num_pieces ti - 1
  then to_int (total_size ti - (num_pieces ti - 1) * piece_length ti)
  else piece_length ti.

(** Geometry of a well-formed torrent: files laid out back to back from
    offset 0, pieces of positive length, the piece count matching the
    total size, every quantity the program stores in an [int] fitting. *)
Fixpoint files_laid_out (from : Z) (fs : list file_entry) : bool :=
  match fs with
  | [] => true
  | f :: fs' =>
      (fe_offset f =? from) && (0 <=? fe_size f) &&
      files_laid_out (from + fe_size f) fs'
  end.

Definition files_total (fs : list file_entry) : Z :=
  fold_right (fun f acc => fe_size f + acc) 0 fs.

Definition valid_torrent (ti : torrent_info) : bool :=
  (0 <? piece_length ti) && (piece_length ti <=? INT_MAX) &&
  files_laid_out 0 (ti_files ti) &&
  (total_size ti =? files_total (ti_files ti)) &&
  (num_pieces ti =? (total_size ti + piece_length ti - 1) / piece_length ti) &&
  (num_pieces ti <=? INT_MAX).

(** What the engine answers when asked through [handle]. *)
Record engine := mk_engine {
  info : torrent_info;            (* handle.get_torrent_info() *)
  have_piece : Z -> bool          (* handle.have_piece(i) *)
}.

(** What the program asks the engine to do. *)
Inductive engine_call :=
| piece_priority (index prio : Z)
| file_priority (index prio : Z)
| read_piece (index : Z)
| set_download_limit (limit : Z)
| set_upload_limit (limit : Z).

#[global] Instance engine_call_eq_dec : EqDecision engine_call.
Proof. solve_decision. Defined.

(** ** Parts and reads

    The classes [Part] and [Read] are declared in [btfs.h]; the fields
    below are the ones [btfs.cc] reads and writes. *)

Record Part := mk_Part {
  part : peer_request;
  buf : Z;                (* destination, as an offset into the caller's buffer *)
  filled : bool
}.

Record Read := mk_Read { parts : list Part }.

(** ** The shared state of the program *)

Record State := mk_State {
  cursor : Z;                                   (* first piece of the window *)
  reads : list (nat * Read);                    (* pending reads, by address *)
  files : gmap string (file_entry * Z);
  dirs : gmap string (gset string);
  calls : list engine_call                      (* newest first *)
}.

Definition set_cursor (c : Z) (st : State) : State :=
  mk_State c (reads st) (files st) (dirs st) (calls st).

Definition call (c : engine_call) (st : State) : State :=
  mk_State (cursor st) (reads st) (files st) (dirs st) (c :: calls st).

(** The priority the engine was last given for a piece, if any. *)
Fixpoint priority_of (log : list engine_call) (i : Z) : option Z :=
  match log with
  | [] => None
  | piece_priority j p :: log' => if i =? j then Some p else priority_of log' i
  | _ :: log' => priority_of log' i
  end.

(** ** The piece-window scheduler *)

Section Scheduler.
Variable e : engine.

(** The loop of [move_to_next_unfinished].  [left] counts the pieces from
    [piece] up to [num_pieces]: the loop test [piece < num_pieces] holds
    exactly while it is not zero. *)
Fixpoint scan (left : nat) (piece : Z) : bool * Z :=
  match left with
  | O => (false, piece)
  | S left' =>
      if negb (have_piece e piece) then (true, piece)
      else scan left' (piece + 1)
  end.

(** Returns the flag and the new value of the reference parameter. *)
Definition move_to_next_unfinished (piece : Z) : bool * Z :=
  scan (Z.to_nat (num_pieces (info e) - piece)) piece.

(** [for (int b = 0; b < 0x200000; b += pl)]: [None] when the body
    returns from [jump], [Some tail] when the loop runs to its end. *)
Fixpoint urgent_loop (fuel : nat) (pl b tail : Z) (st : State)
  : result (option Z * State) :=
  if b <? 2097152 then
    let '(found, tail) := move_to_next_unfinished tail in
    if negb found then Ok (None, st)
    else
      match fuel with
      | O => OutOfFuel
      | S fuel' =>
          let st := call (piece_priority tail 7) st in
          tail ← int (tail + 1);
          b ← int (b + pl);
          urgent_loop fuel' pl b tail st
      end
  else Ok (Some tail, st).

(** [for (int o = ...; o < size + pl - 1; o += pl)] *)
Fixpoint normal_loop (fuel : nat) (pl size o tail : Z) (st : State)
  : result State :=
  s ← int (size + pl);
  bound ← int (s - 1);
  if o <? bound then
    match fuel with
    | O => OutOfFuel
    | S fuel' =>
        let st := call (piece_priority tail 1) st in
        tail ← int (tail + 1);
        o ← int (o + pl);
        normal_loop fuel' pl size o tail st
    end
  else Ok st.

Definition jump (piece size : Z) (st : State) : result State :=
  let '(found, tail) := move_to_next_unfinished piece in
  if negb found then Ok st
  else
    let st := set_cursor tail st in
    let pl := piece_length (info e) in
    '(r, st) ← urgent_loop (Z.to_nat (num_pieces (info e) - tail)) pl 0 tail st;
    match r with
    | None => Ok st
    | Some tail =>
        d ← int (tail - piece);
        o ← int (d * pl);
        normal_loop (Z.to_nat ((size + pl - 1 - o) / pl + 1)) pl size o tail st
    end.

Definition advance (st : State) : result State := jump (cursor st) 0 st.

End Scheduler.

(** ** Read decomposition and tracking *)

(** Modelled from the spec: the constructor [Part(part, buf)] is declared in
    [btfs.h]; a Part is built with its filled flag false ("Parts built,
    none filled"). *)
Definition new_Part (p : peer_request) (b : Z) : Part := mk_Part p b false.

Section Reads.
Variable e : engine.

(** The loop of [Read::Read]; the parts come out in [push_back] order. *)
Fixpoint Read_loop (fuel : nat) (b index offset size : Z)
  : result (list Part) :=
  if size <=? 0 then Ok []
  else
    f ← file_at (info e) index;
    if fe_size f <=? offset then Ok []
    else
      match fuel with
      | O => OutOfFuel
      | S fuel' =>
          let p := map_file (info e) index offset size in
          room ← int (piece_size (info e) (piece p) - start p);
          let p := mk_peer_request (piece p) (start p)
                     (Z.min room (length p)) in
          size ← int (size - length p);
          offset ← int (offset + length p);
          rest ← Read_loop fuel' (b + length p) index offset size;
          Ok (new_Part p b :: rest)
      end.

Definition Read_new (b index offset size : Z) : result Read :=
  ps ← Read_loop (Z.to_nat size) b index offset size;
  Ok (mk_Read ps).

(** [Read::copy]: [memcpy] returns its (non-null) destination, so every
    matching unfilled part becomes filled.  The bytes are not tracked. *)
Definition Read_copy (r : Read) (pc : Z) : Read :=
  mk_Read (map (fun i =>
    if (piece (part i) =? pc) && negb (filled i)
    then mk_Part (part i) (buf i) true else i) (parts r)).

(** [Read::trigger] *)
Definition Read_trigger (r : Read) (st : State) : State :=
  fold_left (fun st i =>
    if have_piece e (piece (part i))
    then call (read_piece (piece (part i))) st else st) (parts r) st.

(** [Read::finished] *)
Definition Read_finished (r : Read) : bool :=
  forallb filled (parts r).

(** [Read::size] *)
Fixpoint sum_lengths (s : Z) (ps : list Part) : result Z :=
  match ps with
  | [] => Ok s
  | i :: ps' => s ← int (s + length (part i)); sum_lengths s ps'
  end.

Definition Read_size (r : Read) : result Z := sum_lengths 0 (parts r).

(** A thread inside [Read::read] either has returned a value or sits in
    [pthread_cond_wait]. *)
Inductive read_status :=
| Returned (n : Z)
| Waiting.

(** The loop [while (!finished()) pthread_cond_wait(...)], from its test
    up to the next wait. *)
Definition Read_wait (r : Read) (st : State) : result (read_status * State) :=
  if negb (Read_finished r) then Ok (Waiting, st)
  else s ← Read_size r; Ok (Returned s, st).

(** [Read::read] up to its first wait or its return. *)
Definition Read_read (r : Read) (st : State) : result (read_status * State) :=
  s ← Read_size r;
  if s <=? 0 then Ok (Returned 0, st)
  else
    let st := Read_trigger r st in
    front ← match parts r with
            | i :: _ => Ok i
            | [] => Undefined
            end;
    s ← Read_size r;
    st ← jump e (piece (part front)) s st;
    Read_wait r st.

End Reads.

(** ** The namespace: [setup] *)

Definition set_files (m : gmap string (file_entry * Z)) (st : State) : State :=
  mk_State (cursor st) (reads st) m (dirs st) (calls st).

Definition set_dirs (m : gmap string (gset string)) (st : State) : State :=
  mk_State (cursor st) (reads st) (files st) m (calls st).

Definition set_reads (rs : list (nat * Read)) (st : State) : State :=
  mk_State (cursor st) rs (files st) (dirs st) (calls st).

(** The tokens [strtok(p, "/")] hands out one after the other: the maximal
    runs of characters other than '/'.  [cur] is the token being read. *)
Fixpoint strtok (cur : string) (s : string) : list string :=
  match s with
  | EmptyString => if String.eqb cur "" then [] else [cur]
  | String c s' =>
      if Ascii.eqb c "/"%char
      then (if String.eqb cur "" then strtok "" s' else cur :: strtok "" s')
      else strtok (cur +:+ String c "") s'
  end.

(** [dirs[k].insert(x)] *)
Definition dirs_insert (k x : string) (d : gmap string (gset string))
  : gmap string (gset string) :=
  <[k := {[x]} ∪ default ∅ (d !! k)]> d.

(** The inner loop of [setup], over the components of one path. *)
Fixpoint setup_path (parent : string) (xs : list string)
  (d : gmap string (gset string)) : gmap string (gset string) :=
  match xs with
  | [] => d
  | x :: xs' =>
      if (String.length x <=? 0)%nat then setup_path parent xs' d
      else
        let d := if (String.length parent <=? 0)%nat
                 then dirs_insert "/" x d
                 else dirs_insert parent x d in
        setup_path (parent +:+ "/" +:+ x) xs' d
  end.

(** The outer loop of [setup], from file [i] on. *)
Fixpoint setup_files (i : Z) (fs : list file_entry) (st : State) : State :=
  match fs with
  | [] => st
  | f :: fs' =>
      let st := call (file_priority i 0) st in
      let st := set_dirs (setup_path "" (strtok "" (fe_path f)) (dirs st)) st in
      let st := set_files (<["/" +:+ fe_path f := (f, i)]> (files st)) st in
      setup_files (i + 1) fs' st
  end.

Definition setup (e : engine) (st : State) : State :=
  let st := call (set_download_limit (5 * 1024 * 1024 / 8)) st in
  let st := call (set_upload_limit (5 * 1024 * 1024 / 8)) st in
  setup_files 0 (ti_files (info e)) st.

(** ** The alert handlers.  An alert that carries a torrent handle is
    modelled as carrying the engine [e] reached through it. *)

Definition handle_read_piece_alert (pc : Z) (st : State) : State :=
  set_reads (map (fun ar => (ar.1, Read_copy ar.2 pc)) (reads st)) st.

Definition handle_piece_finished_alert (e : engine) (st : State)
  : result State :=
  let st := fold_left (fun st ar => Read_trigger e ar.2 st) (reads st) st in
  advance e st.



Definition handle_metadata_received_alert (e : engine) (st : State) : State :=
  setup e st.

(** ** [btfs_read] *)

Definition ENOENT : Z := 2.
Definition EISDIR : Z := 21.

(** The address [new Read] returns: one no pending read lives at. *)
Definition fresh_addr (rs : list (nat * Read)) : nat :=
  S (fold_right (fun ar m => Nat.max ar.1 m) O rs).

(** [reads.remove(r)] *)
Definition remove_read (a : nat) (st : State) : State :=
  set_reads (filter (fun ar => ar.1 ≠ a) (reads st)) st.

(** The decomposition [btfs_read] asks for: the length is cut to the file
    size, and offset and length are passed as [int]. *)
Definition btfs_read_parts (e : engine) (b index size offset : Z)
  : result Read :=
  f ← file_at (info e) index;
  Read_new e b index (to_int offset) (to_int (Z.min size (fe_size f))).

(** [btfs_read] up to its return or the first wait of its [Read]; the
    address of the [Read] is [fresh_addr] of the pending reads. *)
Definition btfs_read (e : engine) (path : string) (b size offset : Z)
  (st : State) : result (read_status * State) :=
  match dirs st !! path, files st !! path with
  | None, None => Ok (Returned (- ENOENT), st)
  | Some _, _ => Ok (Returned (- EISDIR), st)
  | None, Some (_, index) =>
      r ← btfs_read_parts e b index size offset;
      let a := fresh_addr (reads st) in
      let st := set_reads (reads st ++ [(a, r)]) st in
      '(s, st) ← Read_read e r st;
      match s with
      | Returned n => Ok (Returned n, remove_read a st)
      | Waiting => Ok (Waiting, st)
      end
  end.

(** The same thread, woken from [pthread_cond_wait]: the loop test again,
    on the [Read] as the alert thread left it. *)
Definition btfs_read_wake (a : nat) (st : State)
  : result (read_status * State) :=
  match list_find (fun ar => ar.1 = a) (reads st) with
  | None => Undefined
  | Some (_, (_, r)) =>
      '(s, st) ← Read_wait r st;
      match s with
      | Returned n => Ok (Returned n, remove_read a st)
      | Waiting => Ok (Waiting, st)
      end
  end.

(** ** Vocabulary of the properties *)

Definition with_calls (cs : list engine_call) (st : State) : State :=
  mk_State (cursor st) (reads st) (files st) (dirs st) cs.

(** The calls that give every piece of [ps] the priority [p]. *)
Definition prio_calls (p : Z) (ps : list Z) : list engine_call :=
  map (fun i => piece_priority i p) ps.

(** Inputs on which no [int] computed by [jump] leaves its range. *)
Definition jump_in_range (e : engine) (s n : Z) : Prop :=
  0 < piece_length (info e) ∧ 0 ≤ s ∧ 0 ≤ n ∧
  num_pieces (info e) * piece_length (info e) ≤ INT_MAX ∧
  num_pieces (info e) + n + 2 * piece_length (info e) ≤ INT_MAX ∧
  piece_length (info e) + 2097152 ≤ INT_MAX.

(** The pieces a log gives the priority [p], newest first. *)
Definition window (p : Z) (log : list engine_call) : list Z :=
  omap (fun c =>
    match c with
    | piece_priority i q => if q =? p then Some i else None
    | _ => None
    end) log.

(** A run of [advance] calls, the engine seen at each call given in turn;
    the result lists the state after every call. *)
Fixpoint advance_run (es : list engine) (st : State) : result (list State) :=
  match es with
  | [] => Ok []
  | e :: es' =>
      st' ← advance e st;
      sts ← advance_run es' st';
      Ok (st' :: sts)
  end.

(** What [setup] does to each field of the state. *)
Fixpoint files_after (i : Z) (fs : list file_entry)
  (m : gmap string (file_entry * Z)) : gmap string (file_entry * Z) :=
  match fs with
  | [] => m
  | f :: fs' => files_after (i + 1) fs' (<["/" +:+ fe_path f := (f, i)]> m)
  end.

Fixpoint dirs_after (fs : list file_entry) (d : gmap string (gset string))
  : gmap string (gset string) :=
  match fs with
  | [] => d
  | f :: fs' => dirs_after fs' (setup_path "" (strtok "" (fe_path f)) d)
  end.

Fixpoint priority_resets (i : Z) (fs : list file_entry) : list engine_call :=
  match fs with
  | [] => []
  | f :: fs' => priority_resets (i + 1) fs' ++ [file_priority i 0]
  end.

(** The (directory, child) pairs [setup_path] inserts, in order. *)
Fixpoint path_ops (parent : string) (xs : list string) : list (string * string) :=
  match xs with
  | [] => []
  | x :: xs' =>
      if (String.length x <=? 0)%nat then path_ops parent xs'
      else
        ((if (String.length parent <=? 0)%nat then "/" else parent), x)
          :: path_ops (parent +:+ "/" +:+ x) xs'
  end.

Definition apply_ops (ops : list (string * string))
  (d : gmap string (gset string)) : gmap string (gset string) :=
  fold_left (fun d kx => dirs_insert kx.1 kx.2 d) ops d.

(** Directory [k] is known and lists the child [x]. *)
Definition dir_has (d : gmap string (gset string)) (k x : string) : Prop :=
  ∃ S, d !! k = Some S ∧ x ∈ S.

(** Parts laid back to back from byte [abs] of the torrent and from offset
    [b] of the buffer, each inside one piece of the torrent, each next
    part in the next piece. *)
Fixpoint tiles (ti : torrent_info) (abs b : Z) (ps : list Part) : Prop :=
  match ps with
  | [] => True
  | i :: ps' =>
      piece (part i) * piece_length ti + start (part i) = abs ∧
      0 ≤ piece (part i) < num_pieces ti ∧
      0 ≤ start (part i) ∧ 0 < length (part i) ∧
      start (part i) + length (part i) ≤ piece_size ti (piece (part i)) ∧
      buf i = b ∧ filled i = false ∧
      match ps' with
      | [] => True
      | j :: _ => piece (part j) = piece (part i) + 1
      end ∧
      tiles ti (abs + length (part i)) (b + length (part i)) ps'
  end.

(** ** Sample torrents *)

Definition ti_single : torrent_info :=
  mk_torrent_info 16384 4 50000 [mk_file_entry "a.bin" 0 50000].

Definition ti_pair : torrent_info :=
  mk_torrent_info 16384 7 100000
    [mk_file_entry "a.bin" 0 50000; mk_file_entry "b.bin" 50000 50000].

Definition ti_big_piece : torrent_info :=
  mk_torrent_info 2097152 1 2097152 [mk_file_entry "a.bin" 0 2097152].

Definition ti_video : torrent_info :=
  mk_torrent_info 16384 256 4194304 [mk_file_entry "v/a.mkv" 0 4194304].

Definition nothing_yet (ti : torrent_info) : engine := mk_engine ti (fun _ => false).
Definition seeded (ti : torrent_info) : engine := mk_engine ti (fun _ => true).
Definition have_below (k : Z) (ti : torrent_info) : engine :=
  mk_engine ti (fun i => i <? k).

Definition initial_state : State := mk_State 0 [] ∅ ∅ [].

(** ** The other filesystem operations *)

Definition ENOTDIR : Z := 20.
Definition EACCES : Z := 13.
Definition O_RDONLY : Z := 0.
Definition S_IFDIR : Z := 16384.        (* 0040000 *)
Definition S_IFREG : Z := 32768.        (* 0100000 *)

Definition is_dir (path : string) (st : State) : bool :=
  bool_decide (is_Some (dirs st !! path)).

Definition is_file (path : string) (st : State) : bool :=
  bool_decide (is_Some (files st !! path)).

(** The two fields of [struct stat] that [btfs_getattr] sets; the rest is
    zeroed by [memset]. *)
Record stat := mk_stat {
  st_mode : Z;
  st_size : Z
}.

(** [btfs_getattr]: the return value and, unless it is an error, what is
    written to [stbuf].  On the last branch [files[path]] exists. *)
Definition btfs_getattr (path : string) (st : State) : Z * option stat :=
  if negb (is_dir path st) && negb (is_file path st) && negb (String.eqb path "/")
  then (- ENOENT, None)
  else if String.eqb path "/" || is_dir path st
  then (0, Some (mk_stat (Z.lor S_IFDIR 493) 0))            (* 0755 *)
  else
    (0, Some (mk_stat (Z.lor S_IFREG 292)                    (* 0444 *)
                (match files st !! path with
                 | Some (f, _) => fe_size f
                 | None => 0
                 end))).

(** A [std::set<std::string>] is walked in ascending order. *)
Definition in_order (names : gset string) : list string :=
  merge_sort String.le (elements names).

(** [btfs_readdir]: the return value, the names handed to [filler] in
    order, and the state: [dirs[path]] creates an empty entry for a path
    that has none. *)
Definition btfs_readdir (path : string) (st : State)
  : Z * list string * State :=
  if negb (is_dir path st) && negb (is_file path st) && negb (String.eqb path "/")
  then (- ENOENT, [], st)
  else if is_file path st then (- ENOTDIR, [], st)
  else
    match dirs st !! path with
    | Some names => (0, "." :: ".." :: in_order names, st)
    | None => (0, ["."; ".."], set_dirs (<[path := ∅]> (dirs st)) st)
    end.

(** [btfs_open] *)
Definition btfs_open (path : string) (flags : Z) (st : State) : Z :=
  if negb (is_dir path st) && negb (is_file path st) then - ENOENT
  else if is_dir path st then - EISDIR
  else if negb (Z.land flags 3 =? O_RDONLY) then - EACCES
  else 0.

(** ** The alert loop *)



(** ** More vocabulary *)

(** The undownloaded pieces from [c] on, in ascending order. *)
Definition unfinished_from (e : engine) (c : Z) : list Z :=
  filter (fun i => have_piece e i = false)
    (seqZ c (num_pieces (info e) - c)).

(** The alerts that deliver, one after the other, the pieces [pcs]. *)
Definition deliver (pcs : list Z) (st : State) : State :=
  fold_left (fun st pc => handle_read_piece_alert pc st) pcs st.

(** No '/' occurs in the string. *)
Fixpoint slash_free (s : string) : bool :=
  match s with
  | EmptyString => true
  | String c s' => negb (Ascii.eqb c "/"%char) && slash_free s'
  end.

(** The path [setup] has built in [parent] after the components [xs]. *)
Definition descend (parent : string) (xs : list string) : string :=
  fold_left (fun p x => p +:+ "/" +:+ x) xs parent.

(** The state once the metadata of [ti] has arrived, nothing being
    downloaded yet. *)
Definition mounted (ti : torrent_info) : State :=
  handle_metadata_received_alert (nothing_yet ti) initial_state.

(** The key of [dirs] under which the children of [parent] are kept. *)
Definition dir_key (parent : string) : string :=
  if (String.length parent <=? 0)%nat then "/" else parent.

(** * Properties *)

(** ** Reasoning about outcomes *)

Lemma bind_Ok {A B} (m : result A) (k : A → result B) (v : B) :
  m ≫= k = Ok v → ∃ a, m = Ok a ∧ k a = Ok v.
Proof. destruct m as [a| |]; simpl; [eauto | discriminate | discriminate]. Qed.

Lemma bind_Ok_l {A B} (a : A) (k : A → result B) : Ok a ≫= k = k a.
Proof. reflexivity. Qed.

Lemma int_Ok (z v : Z) : int z = Ok v → v = z ∧ INT_MIN ≤ z ≤ INT_MAX.
Proof.
  unfold int, in_int.
  destruct (INT_MIN <=? z) eqn:H1; [|discriminate].
  destruct (z <=? INT_MAX) eqn:H2; [|discriminate].
  intros [= <-]. apply Z.leb_le in H1. apply Z.leb_le in H2. split; [done | lia].
Qed.

Lemma int_in_range (z : Z) : INT_MIN ≤ z ≤ INT_MAX → int z = Ok z.
Proof.
  intros [H1 H2]. unfold int, in_int.
  apply Z.leb_le in H1. apply Z.leb_le in H2. by rewrite H1, H2.
Qed.

Ltac inv_result :=
  repeat match goal with
  | H : _ ≫= _ = Ok _ |- _ =>
      let a := fresh "a" in let Ha := fresh "Ha" in
      apply bind_Ok in H as (a & Ha & H)
  | H : int _ = Ok _ |- _ =>
      let R := fresh "R" in apply int_Ok in H as [-> R]
  | H : Ok _ = Ok _ |- _ => injection H as H
  | H : Undefined = Ok _ |- _ => discriminate H
  | H : OutOfFuel = Ok _ |- _ => discriminate H
  end.

(** ** The scheduler *)



Section SchedulerFacts.
Variable e : engine.

Local Abbreviation np := (num_pieces (info e)).

Lemma scan_found (left : nat) (p t : Z) :
  scan e left p = (true, t) →
  p ≤ t < p + Z.of_nat left ∧ have_piece e t = false ∧
  ∀ i, p ≤ i < t → have_piece e i = true.
Proof.
  revert p. induction left as [|left IH]; intros p; simpl; [discriminate|].
  destruct (have_piece e p) eqn:Hp; simpl.
  - intros H. apply IH in H as (H1 & H2 & H3).
    split; [lia|]. split; [done|].
    intros i Hi. destruct (decide (i = p)) as [->|]; [done|]. apply H3; lia.
  - intros [= <-]. split; [lia|]. split; [done|]. intros; lia.
Qed.

Lemma scan_none (left : nat) (p t : Z) :
  scan e left p = (false, t) →
  t = p + Z.of_nat left ∧ ∀ i, p ≤ i < t → have_piece e i = true.
Proof.
  revert p. induction left as [|left IH]; intros p; simpl.
  - intros [= <-]. split; [lia|]. intros; lia.
  - destruct (have_piece e p) eqn:Hp; simpl; [|discriminate].
    intros H. apply IH in H as (H1 & H2).
    split; [lia|].
    intros i Hi. destruct (decide (i = p)) as [->|]; [done|]. apply H2; lia.
Qed.

Lemma mtnu_found (p t : Z) :
  move_to_next_unfinished e p = (true, t) →
  p ≤ t < np ∧ have_piece e t = false ∧ ∀ i, p ≤ i < t → have_piece e i = true.
Proof.
  unfold move_to_next_unfinished. intros H.
  apply scan_found in H as (H1 & H2 & H3). repeat split; try done; lia.
Qed.

Lemma mtnu_none (p t : Z) :
  move_to_next_unfinished e p = (false, t) →
  t = Z.max p np ∧ ∀ i, p ≤ i < np → have_piece e i = true.
Proof.
  unfold move_to_next_unfinished. intros H.
  apply scan_none in H as (H1 & H2). split; [lia|].
  intros i Hi. apply H2. lia.
Qed.

Lemma mtnu_first (p c : Z) :
  p ≤ c < np → have_piece e c = false → (∀ i, p ≤ i < c → have_piece e i = true) →
  move_to_next_unfinished e p = (true, c).
Proof.
  intros Hc Hf Hall.
  destruct (move_to_next_unfinished e p) as [[] t] eqn:H.
  - apply mtnu_found in H as (H1 & H2 & H3).
    f_equal. destruct (Z.lt_trichotomy t c) as [Hlt|[->|Hgt]]; [|done|].
    + rewrite Hall in H2 by lia. discriminate.
    + rewrite H3 in Hf by lia. discriminate.
  - apply mtnu_none in H as (_ & H). rewrite H in Hf by lia. discriminate.
Qed.

Lemma mtnu_all (p : Z) :
  (∀ i, p ≤ i < np → have_piece e i = true) →
  move_to_next_unfinished e p = (false, Z.max p np).
Proof.
  intros Hall.
  destruct (move_to_next_unfinished e p) as [[] t] eqn:H.
  - apply mtnu_found in H as (H1 & H2 & _). rewrite Hall in H2 by lia.
    discriminate.
  - apply mtnu_none in H as (-> & _). done.
Qed.


Lemma urgent_loop_done (fuel : nat) (pl b tail : Z) (st : State) :
  2097152 ≤ b → urgent_loop e fuel pl b tail st = Ok (Some tail, st).
Proof.
  intros Hb. apply Z.ltb_ge in Hb. destruct fuel; simpl; by rewrite Hb.
Qed.

Lemma urgent_loop_spec (fuel : nat) (pl b tail : Z) (st : State) r st' :
  urgent_loop e fuel pl b tail st = Ok (r, st') →
  ∃ us : list Z,
    st' = with_calls (prio_calls 7 us ++ calls st) st ∧
    Forall (fun i => tail ≤ i < np ∧ have_piece e i = false) us ∧
    match r with
    | Some t =>
        Forall (fun i => i < t) us ∧ tail ≤ t ∧
        2097152 ≤ b + Z.of_nat (List.length us) * pl ∧
        (b < 2097152 → head us = Some (t - 1))
    | None => b + Z.of_nat (List.length us) * pl < 2097152
    end.
Proof.
  revert b tail st r st'.
  induction fuel as [|fuel IH]; intros b tail st r st'; simpl;
    destruct (Z.ltb_spec b 2097152) as [Hb|Hb];
    try (intros [= <- <-]; exists []; destruct st; simpl;
         repeat split; auto; lia);
    destruct (move_to_next_unfinished e tail) as [[] t] eqn:Hm; simpl;
    try (intros [= <- <-]; exists []; destruct st; simpl;
         repeat split; auto; lia);
    try discriminate.
  intros H. apply mtnu_found in Hm as (Ht & Hf & _).
  inv_result.
  destruct (Z.ltb_spec (b + pl) 2097152) as [Hb'|Hb'].
  - apply IH in H as (us & -> & Hus & Hr).
    exists (us ++ [t]). split.
    { unfold with_calls, prio_calls; simpl. rewrite map_app, <- app_assoc. done. }
    split.
    { apply Forall_app. split.
      - eapply Forall_impl; [exact Hus|]. simpl. intros i ?. split; [lia|tauto].
      - repeat constructor; [lia | lia | done]. }
    rewrite length_app. simpl.
    destruct r as [t'|].
    + destruct Hr as (H1 & H2 & H3 & H4). split.
      { apply Forall_app. split; [done|]. repeat constructor. lia. }
      split; [lia|]. split; [lia|]. intros _.
      specialize (H4 Hb'). destruct us; [discriminate|done].
    + lia.
  - rewrite urgent_loop_done in H by done. injection H as <- <-.
    exists [t]. split; [done|]. split.
    { repeat constructor; [lia | lia | done]. }
    split; [repeat constructor; lia|]. split; [lia|]. split; [simpl; lia|].
    intros _. simpl. f_equal. lia.
Qed.

Lemma normal_loop_spec (fuel : nat) (pl size o tail : Z) (st st' : State) :
  normal_loop fuel pl size o tail st = Ok st' →
  ∃ k : nat,
    st' = with_calls (prio_calls 1 (reverse (seqZ tail (Z.of_nat k))) ++ calls st) st ∧
    size + pl - 1 ≤ o + Z.of_nat k * pl ∧
    ((0 < k)%nat → o + (Z.of_nat k - 1) * pl < size + pl - 1).
Proof.
  revert o tail st st'.
  induction fuel as [|fuel IH]; intros o tail st st'; simpl; intros H; inv_result;
    destruct (Z.ltb_spec o (size + pl - 1)) as [Ho|Ho]; try discriminate;
    try (injection H as <-; exists O; destruct st; simpl;
         split; [done|]; split; lia).
  inv_result. apply IH in H as (k & -> & H1 & H2).
  exists (S k). split.
  { rewrite (seqZ_cons tail) by lia. rewrite reverse_cons.
    replace (Z.pred (Z.of_nat (S k))) with (Z.of_nat k) by lia.
    unfold with_calls, prio_calls; simpl.
    rewrite map_app, <- app_assoc. done. }
  split; [lia|]. intros _.
  destruct k as [|k]; [simpl; lia|].
  assert (0 < S k)%nat as Hk by lia. specialize (H2 Hk). lia.
Qed.

(** What a completed call of [jump] has done. *)
Lemma jump_spec (s n : Z) (st st' : State) :
  jump e s n st = Ok st' →
  (∃ t, move_to_next_unfinished e s = (false, t) ∧ st' = st) ∨
  ∃ c us ns,
    move_to_next_unfinished e s = (true, c) ∧
    st' = mk_State c (reads st) (files st) (dirs st)
            (prio_calls 1 ns ++ prio_calls 7 us ++ calls st) ∧
    Forall (fun i => c ≤ i < np ∧ have_piece e i = false) us ∧
    ((ns = [] ∧
      Z.of_nat (List.length us) * piece_length (info e) < 2097152) ∨
     ∃ (t : Z) (k : nat),
       head us = Some (t - 1) ∧ Forall (fun i => i < t) us ∧
       2097152 ≤ Z.of_nat (List.length us) * piece_length (info e) ∧
       ns = reverse (seqZ t (Z.of_nat k)) ∧
       n + piece_length (info e) - 1
         ≤ (t - s + Z.of_nat k) * piece_length (info e) ∧
       ((0 < k)%nat →
        (t - s + Z.of_nat k - 1) * piece_length (info e)
          < n + piece_length (info e) - 1)).
Proof.
  unfold jump.
  destruct (move_to_next_unfinished e s) as [[] c] eqn:Hm; simpl.
  2:{ intros [= <-]. left. eauto. }
  intros H. right. inv_result. destruct a as [r st1].
  apply urgent_loop_spec in Ha as (us & -> & Hus & Hr).
  exists c, us. destruct r as [t|].
  - destruct Hr as (H1 & H2 & H3 & H4). inv_result.
    apply normal_loop_spec in H as (k & -> & H5 & H6).
    exists (reverse (seqZ t (Z.of_nat k))). split; [done|]. split; [done|].
    split; [done|]. right. exists t, k.
    split; [apply H4; lia|]. split; [done|]. split; [lia|]. split; [done|].
    split; [lia|]. intros Hk. specialize (H6 Hk). lia.
  - injection H as <-. exists []. split; [done|]. split; [done|].
    split; [done|]. left. split; [done|lia].
Qed.



Lemma urgent_loop_total (fuel : nat) (pl b tail : Z) (st : State) :
  0 < pl → pl + 2097152 ≤ INT_MAX → 0 ≤ b → 0 ≤ tail → np ≤ INT_MAX →
  np - tail ≤ Z.of_nat fuel →
  ∃ r st', urgent_loop e fuel pl b tail st = Ok (r, st').
Proof.
  intros Hpl Hpl2 Hb Ht Hnp. revert b tail st Hb Ht.
  induction fuel as [|fuel IH]; intros b tail st Hb Ht Hfuel; simpl;
    destruct (Z.ltb_spec b 2097152) as [Hb'|Hb']; eauto;
    destruct (move_to_next_unfinished e tail) as [[] t] eqn:Hm; simpl; eauto;
    apply mtnu_found in Hm as (Hm & _); [lia|].
  unfold INT_MAX in *.
  rewrite (int_in_range (t + 1)) by (unfold INT_MIN, INT_MAX; lia). simpl.
  rewrite (int_in_range (b + pl)) by (unfold INT_MIN, INT_MAX; lia). simpl.
  apply IH; lia.
Qed.

Lemma normal_loop_total (fuel : nat) (pl size o tail : Z) (st : State) :
  0 < pl → INT_MIN ≤ size + pl - 1 → size + 2 * pl - 1 ≤ INT_MAX →
  INT_MIN ≤ o → INT_MIN ≤ tail → tail + Z.of_nat fuel ≤ INT_MAX →
  (size + pl - 1 - o) / pl + 1 ≤ Z.of_nat fuel →
  ∃ st', normal_loop fuel pl size o tail st = Ok st'.
Proof.
  intros Hpl Hlo Hhi. revert o tail st.
  induction fuel as [|fuel IH]; intros o tail st Ho Ht Htf Hfuel; simpl;
    rewrite (int_in_range (size + pl)) by (unfold INT_MIN, INT_MAX in *; lia);
    simpl;
    rewrite (int_in_range (size + pl - 1)) by (unfold INT_MIN, INT_MAX in *; lia);
    simpl;
    destruct (Z.ltb_spec o (size + pl - 1)) as [Ho'|Ho']; eauto.
  - assert (0 ≤ (size + pl - 1 - o) / pl) by (apply Z.div_pos; lia). lia.
  - rewrite (int_in_range (tail + 1)) by (unfold INT_MIN, INT_MAX in *; lia).
    simpl.
    rewrite (int_in_range (o + pl)) by (unfold INT_MIN, INT_MAX in *; lia).
    simpl. apply IH; try lia.
    replace (size + pl - 1 - (o + pl)) with (size + pl - 1 - o + (-1) * pl) by lia.
    rewrite Z.div_add by lia. lia.
Qed.

(** [jump] completes on every input in range. *)
Lemma jump_total (s n : Z) (st : State) :
  jump_in_range e s n → ∃ st', jump e s n st = Ok st'.
Proof.
  intros (Hpl & Hs & Hn & H1 & H2 & H3). unfold jump.
  destruct (move_to_next_unfinished e s) as [[] c] eqn:Hm; simpl; eauto.
  apply mtnu_found in Hm as (Hc & _).
  destruct (urgent_loop_total (Z.to_nat (np - c)) (piece_length (info e))
              0 c (set_cursor c st)) as (r & st1 & Hu); try lia.
  rewrite Hu. simpl.
  apply urgent_loop_spec in Hu as (us & -> & Hus & Hr).
  destruct r as [t|]; eauto.
  destruct Hr as (Hlt & Hct & _ & Hhd). specialize (Hhd ltac:(lia)).
  assert (t ≤ np) as Htn.
  { destruct us as [|u us]; [discriminate|]. injection Hhd as ->.
    apply Forall_cons in Hus as ((? & _) & _). lia. }
  assert (0 ≤ (t - s) * piece_length (info e) ≤ np * piece_length (info e)) by nia.
  rewrite (int_in_range (t - s)) by (unfold INT_MIN, INT_MAX in *; lia). simpl.
  rewrite (int_in_range ((t - s) * _)) by (unfold INT_MIN, INT_MAX in *; lia).
  simpl.
  apply normal_loop_total; try (unfold INT_MIN, INT_MAX in *; lia).
  set (q := (n + piece_length (info e) - 1
               - (t - s) * piece_length (info e)) / piece_length (info e) + 1).
  assert (q ≤ n + piece_length (info e)).
  { unfold q.
      destruct (Z.le_gt_cases 0 (n + piece_length (info e) - 1
               - (t - s) * piece_length (info e))) as [Hq|Hq].
      - assert (H' := Z.div_le_upper_bound
          (n + piece_length (info e) - 1 - (t - s) * piece_length (info e))
          (piece_length (info e))
          (n + piece_length (info e) - 1 - (t - s) * piece_length (info e))
          Hpl ltac:(nia)). lia.
      - assert (H' := Z.div_lt_upper_bound
          (n + piece_length (info e) - 1 - (t - s) * piece_length (info e))
          (piece_length (info e)) 0 Hpl ltac:(lia)). lia. }
  unfold INT_MAX in *. lia.
Qed.

End SchedulerFacts.

(** ** Logs and windows *)

Lemma window_prio_calls_same (p : Z) (l : list Z) (rest : list engine_call) :
  window p (prio_calls p l ++ rest) = l ++ window p rest.
Proof.
  induction l as [|i l IH]; [done|].
  unfold window, prio_calls in *. simpl. rewrite Z.eqb_refl. simpl. by f_equal.
Qed.

Lemma window_prio_calls_other (p q : Z) (l : list Z) (rest : list engine_call) :
  p ≠ q → window p (prio_calls q l ++ rest) = window p rest.
Proof.
  intros Hpq. induction l as [|i l IH]; [done|].
  unfold window, prio_calls in *. simpl.
  destruct (Z.eqb_spec q p) as [->|_]; [done|]. exact IH.
Qed.

Lemma priority_of_prio_calls_in (p i : Z) (l : list Z) (rest : list engine_call) :
  i ∈ l → priority_of (prio_calls p l ++ rest) i = Some p.
Proof.
  induction l as [|j l IH]; [by intros ?%elem_of_nil|].
  intros [->|Hi]%elem_of_cons; simpl.
  - by rewrite Z.eqb_refl.
  - destruct (i =? j); [done|]. by apply IH.
Qed.

Lemma priority_of_prio_calls_notin (p i : Z) (l : list Z) (rest : list engine_call) :
  i ∉ l → priority_of (prio_calls p l ++ rest) i = priority_of rest i.
Proof.
  induction l as [|j l IH]; [done|].
  intros [Hij Hi]%not_elem_of_cons. simpl.
  destruct (Z.eqb_spec i j) as [->|_]; [done|]. by apply IH.
Qed.

Lemma elem_of_prio_calls (p : Z) (l : list Z) (c : engine_call) :
  c ∈ prio_calls p l → ∃ i, i ∈ l ∧ c = piece_priority i p.
Proof.
  unfold prio_calls. intros (i & -> & Hi)%list_elem_of_fmap. eauto.
Qed.

(** The calls a completed [jump] has added to the log: priority 1 for a
    run of consecutive pieces on top of priority 7 for undownloaded pieces
    that all lie before that run and not before the requested piece. *)
Lemma jump_calls (e : engine) (s n : Z) (st st' : State) :
  jump e s n st = Ok st' →
  ∃ us ns,
    calls st' = prio_calls 1 ns ++ prio_calls 7 us ++ calls st ∧
    reads st' = reads st ∧ files st' = files st ∧ dirs st' = dirs st ∧
    Forall (fun i => s ≤ i < num_pieces (info e) ∧ have_piece e i = false) us ∧
    Forall (fun j => Forall (fun i => i < j) us ∧ s < j) ns.
Proof.
  intros H. apply jump_spec in H as [(t & Hm & ->)|(c & us & ns & Hm & -> & Hus & Hns)].
  { exists [], []. repeat split; constructor. }
  apply mtnu_found in Hm as (Hc & _).
  exists us, ns. repeat split; try done.
  - eapply Forall_impl; [exact Hus|]. simpl. intros i [? ?]. split; [lia|done].
  - destruct Hns as [[-> _]|(t & k & Hhd & Hlt & _ & -> & _)]; [constructor|].
    apply Forall_forall. intros j Hj%elem_of_reverse%elem_of_seqZ. split.
    + eapply Forall_impl; [exact Hlt|]. simpl. intros; lia.
    + destruct us as [|u us]; [discriminate|]. injection Hhd as ->.
      apply Forall_cons in Hus as ((? & _) & _). lia.
Qed.

(** ** C4 *)

(** C4. For every call [jump s n]: if every piece at or after [s] is
    already downloaded the call changes nothing, neither the cursor nor a
    priority; if some piece at or after [s] is not downloaded, the cursor
    becomes the smallest such piece [c] (and the call completes on every
    input in range). *)
Theorem jump_cursor (e : engine) (s n : Z) (st : State) :
  ((∀ i, s ≤ i < num_pieces (info e) → have_piece e i = true) →
   jump e s n st = Ok st) ∧
  (∀ c, s ≤ c < num_pieces (info e) → have_piece e c = false →
        (∀ i, s ≤ i < c → have_piece e i = true) →
        (∀ st', jump e s n st = Ok st' → cursor st' = c) ∧
        (jump_in_range e s n → ∃ st', jump e s n st = Ok st')).
Proof.
  split.
  - intros Hall. unfold jump. by rewrite (mtnu_all e s Hall).
  - intros c Hc Hf Hmin. split; [|apply jump_total].
    intros st' H.
    apply jump_spec in H as [(t & Hm & _)|(c' & us & ns & Hm & -> & _)];
      rewrite (mtnu_first e s c Hc Hf Hmin) in Hm; [discriminate|].
    by injection Hm as <-.
Qed.

Lemma jump_cursor_witness :
  jump (seeded ti_single) 1 4096 initial_state = Ok initial_state ∧
  ((∀ st', jump (have_below 2 ti_single) 1 4096 initial_state = Ok st' →
           cursor st' = 2) ∧
   ∃ st', jump (have_below 2 ti_single) 1 4096 initial_state = Ok st').
Proof.
  split.
  - apply (jump_cursor (seeded ti_single) 1 4096 initial_state). reflexivity.
  - pose proof (proj2 (jump_cursor (have_below 2 ti_single) 1 4096 initial_state)
                  2) as H.
    destruct H as [H1 H2].
    + simpl. lia.
    + reflexivity.
    + intros i Hi. simpl. apply Z.ltb_lt. lia.
    + split; [exact H1|]. apply H2.
      unfold jump_in_range, INT_MAX. simpl. lia.
Defined.

(** ** C5 *)

(** C5. After every call [jump s n] each piece the call has put in the
    urgent sub-window has priority 7 and each piece it has put in the
    normal sub-window that follows has priority 1, which is lower; the
    priority of a piece before [s] is what it was before the call.  The
    call gives no other priority than these two, and completes on every
    input in range. *)
Theorem jump_priority_order (e : engine) (s n : Z) (st : State) :
  (jump_in_range e s n → ∃ st', jump e s n st = Ok st') ∧
  ∀ st', jump e s n st = Ok st' →
    ∃ new, calls st' = new ++ calls st ∧
      (∀ c, c ∈ new → ∃ i, c = piece_priority i 7 ∨ c = piece_priority i 1) ∧
      (∀ i j, i ∈ window 7 new → j ∈ window 1 new →
         priority_of (calls st') i = Some 7 ∧
         priority_of (calls st') j = Some 1 ∧ 1 < 7 ∧ i < j) ∧
      (∀ i, i < s → priority_of (calls st') i = priority_of (calls st) i).
Proof.
  split; [apply jump_total|].
  intros st' (us & ns & Hcalls & _ & _ & _ & Hus & Hns)%jump_calls.
  exists (prio_calls 1 ns ++ prio_calls 7 us).
  split; [by rewrite <- app_assoc|].
  rewrite Forall_forall in Hus. rewrite Forall_forall in Hns.
  split; [|split].
  - intros c [Hc|Hc]%elem_of_app; apply elem_of_prio_calls in Hc as (i & _ & ->);
      eauto.
  - intros i j Hi Hj.
    rewrite window_prio_calls_other, <- (app_nil_r (prio_calls 7 us)),
      window_prio_calls_same, app_nil_r in Hi by lia.
    rewrite window_prio_calls_same, <- (app_nil_r (prio_calls 7 us)),
      window_prio_calls_other, app_nil_r in Hj by lia.
    destruct (Hns j Hj) as [Hlt _]. rewrite Forall_forall in Hlt.
    specialize (Hlt i Hi). rewrite Hcalls. split; [|split; [|lia]].
    + rewrite priority_of_prio_calls_notin.
      * by apply priority_of_prio_calls_in.
      * intros Hin. destruct (Hns i Hin) as [Hlt' _].
        rewrite Forall_forall in Hlt'. specialize (Hlt' i Hi). lia.
    + by apply priority_of_prio_calls_in.
  - intros i Hi. rewrite Hcalls.
    rewrite !priority_of_prio_calls_notin; [done| |].
    + intros Hin. apply Hus in Hin. lia.
    + intros Hin. apply Hns in Hin. lia.
Qed.

Lemma jump_priority_order_witness :
  ∃ st', jump (nothing_yet ti_video) 3 2200000 initial_state = Ok st' ∧
    priority_of (calls st') 3 = Some 7 ∧
    priority_of (calls st') 131 = Some 1 ∧
    priority_of (calls st') 2 = None.
Proof.
  destruct (jump_priority_order (nothing_yet ti_video) 3 2200000 initial_state)
    as [Htot Hord].
  destruct Htot as [st' Hst'].
  { unfold jump_in_range, INT_MAX. simpl. lia. }
  exists st'. split; [exact Hst'|].
  destruct (Hord st' Hst') as (new & Hnew & _ & Hwin & Hbefore).
  assert (st' = match jump (nothing_yet ti_video) 3 2200000 initial_state with
                | Ok x => x
                | _ => initial_state
                end) as Hval by (by rewrite Hst').
  vm_compute in Hval.
  assert (new = calls st') as -> by (by rewrite Hnew, app_nil_r).
  destruct (Hwin 3 131) as (H7 & H1 & _).
  - rewrite Hval. vm_compute. apply list_elem_of_In. vm_compute. tauto.
  - rewrite Hval. vm_compute. apply list_elem_of_In. vm_compute. tauto.
  - split; [exact H7|]. split; [exact H1|].
    rewrite (Hbefore 2) by lia. reflexivity.
Defined.

(** ** C10 *)

(** The urgent loop asks [move_to_next_unfinished] for a piece before each
    assignment, so the pieces it gives priority 7 are pieces of the
    torrent. *)
Lemma jump_urgent_in_range (e : engine) (s n : Z) (st st' : State) (new : list engine_call) :
  jump e s n st = Ok st' → calls st' = new ++ calls st →
  ∀ i, i ∈ window 7 new → s ≤ i < num_pieces (info e).
Proof.
  intros (us & ns & Hcalls & _ & _ & _ & Hus & _)%jump_calls Hnew i Hi.
  rewrite Hcalls, app_assoc in Hnew. apply app_inv_tail in Hnew as <-.
  rewrite window_prio_calls_other, <- (app_nil_r (prio_calls 7 us)),
    window_prio_calls_same, app_nil_r in Hi by lia.
  rewrite Forall_forall in Hus. by apply Hus.
Qed.

(** C10. Every piece index [jump] passes to [piece_priority] is to lie
    below [num_pieces].  The normal loop assigns without asking: on a
    torrent of one piece of 2 MiB, nothing downloaded, [jump 0 2] gives
    priority 7 to piece 0 and then priority 1 to piece 1, which is not a
    piece of the torrent. *)
Theorem jump_normal_window_out_of_range :
  num_pieces (info (nothing_yet ti_big_piece)) = 1 ∧
  ∃ st', jump (nothing_yet ti_big_piece) 0 2 initial_state = Ok st' ∧
    calls st' = [piece_priority 1 1; piece_priority 0 7].
Proof. split; [reflexivity|]. eexists. split; vm_compute; reflexivity. Qed.

(** ** C2 *)

(** C2 as stated does not hold: on a torrent of 256 pieces of 16 KiB,
    nothing downloaded, [jump 0 4096] fills the urgent sub-window and
    gives no piece priority 1. *)
Lemma normal_window_not_read_size :
  ¬ (∀ (e : engine) (s n : Z) (st st' : State) (new : list engine_call),
       0 < n →
       (∃ i, s ≤ i < num_pieces (info e) ∧ have_piece e i = false) →
       jump e s n st = Ok st' → calls st' = new ++ calls st →
       n ≤ Z.of_nat (List.length (window 1 new)) * piece_length (info e)).
Proof.
  intros H.
  destruct (jump (nothing_yet ti_video) 0 4096 initial_state) as [st'| |] eqn:Hj;
    [|vm_compute in Hj; discriminate..].
  assert (window 1 (calls st') = []) as Hw.
  { vm_compute in Hj. injection Hj as <-. vm_compute. reflexivity. }
  specialize (H (nothing_yet ti_video) 0 4096 initial_state st' (calls st')).
  rewrite Hw in H. simpl in H.
  assert (4096 ≤ 0); [|lia].
  apply H; [lia | | done | by rewrite app_nil_r].
  exists 0. simpl. split; [lia|done].
Qed.

(** C2, amended.  A completed call [jump s n] whose urgent sub-window is
    full (its pieces span the 2 MiB budget) gives priority 1 to the [k]
    consecutive pieces [t], ..., [t + k - 1] that follow the last urgent
    piece [t - 1], where [k] is the least number for which the pieces from
    [s] to the end of the normal sub-window span [n + piece_length - 1]
    bytes, hence at least [n]: the normal sub-window makes up what the
    urgent one, counted from [s], leaves of the read, and is empty when
    that is nothing.  The call completes on every input in range. *)
Theorem jump_window_covers_read (e : engine) (s n : Z) (st : State) :
  (jump_in_range e s n → ∃ st', jump e s n st = Ok st') ∧
  ∀ st' new, jump e s n st = Ok st' → calls st' = new ++ calls st →
    2097152 ≤ Z.of_nat (List.length (window 7 new)) * piece_length (info e) →
    ∃ (t : Z) (k : nat),
      head (window 7 new) = Some (t - 1) ∧
      window 1 new = reverse (seqZ t (Z.of_nat k)) ∧
      n + piece_length (info e) - 1
        ≤ (t + Z.of_nat k - s) * piece_length (info e) ∧
      n ≤ (t + Z.of_nat k - s) * piece_length (info e) ∧
      ((0 < k)%nat →
       (t + Z.of_nat k - 1 - s) * piece_length (info e)
         < n + piece_length (info e) - 1).
Proof.
  split; [apply jump_total|].
  intros st' new H Hnew Hfull.
  apply jump_spec in H as [(t & _ & ->)|(c & us & ns & _ & -> & _ & Hns)].
  { rewrite <- (app_nil_l (calls st)) in Hnew at 1.
    apply app_inv_tail in Hnew as <-. simpl in Hfull. lia. }
  simpl in Hnew. rewrite app_assoc in Hnew. apply app_inv_tail in Hnew as <-.
  assert (window 7 (prio_calls 1 ns ++ prio_calls 7 us) = us) as Hw7.
  { rewrite window_prio_calls_other, <- (app_nil_r (prio_calls 7 us)),
      window_prio_calls_same, app_nil_r by lia. done. }
  assert (window 1 (prio_calls 1 ns ++ prio_calls 7 us) = ns) as Hw1.
  { rewrite window_prio_calls_same, <- (app_nil_r (prio_calls 7 us)),
      window_prio_calls_other, app_nil_r by lia. done. }
  rewrite Hw7 in *. rewrite Hw1.
  destruct Hns as [[_ Hshort]|(t & k & Hhd & _ & _ & -> & Hcov & Hmin)]; [lia|].
  exists t, k. split; [done|]. split; [done|].
  assert (0 < piece_length (info e)) by nia.
  split; [lia|]. split; [lia|]. intros Hk. specialize (Hmin Hk). lia.
Qed.

Lemma jump_window_covers_read_witness :
  ∃ st', jump (nothing_yet ti_video) 3 2200000 initial_state = Ok st' ∧
    ∃ (t : Z) (k : nat),
      head (window 7 (calls st')) = Some (t - 1) ∧
      window 1 (calls st') = reverse (seqZ t (Z.of_nat k)) ∧
      2200000 ≤ (t + Z.of_nat k - 3) * 16384.
Proof.
  destruct (jump_window_covers_read (nothing_yet ti_video) 3 2200000
              initial_state) as [Htot Hcov].
  destruct Htot as [st' Hst'].
  { unfold jump_in_range, INT_MAX. simpl. lia. }
  exists st'. split; [exact Hst'|].
  assert (st' = match jump (nothing_yet ti_video) 3 2200000 initial_state with
                | Ok x => x
                | _ => initial_state
                end) as Hval by (by rewrite Hst').
  vm_compute in Hval.
  destruct (Hcov st' (calls st') Hst') as (t & k & H1 & H2 & _ & H3 & _).
  - by rewrite app_nil_r.
  - rewrite Hval. vm_compute. discriminate.
  - exists t, k. auto.
Defined.

(** ** C8 *)

Lemma advance_cursor (e : engine) (st st' : State) :
  advance e st = Ok st' →
  cursor st' = cursor st ∨
  (have_piece e (cursor st') = false ∧
   cursor st ≤ cursor st' < num_pieces (info e)).
Proof.
  unfold advance. intros H.
  apply jump_spec in H as [(t & _ & ->)|(c & us & ns & Hm & -> & _)];
    [by left|].
  right. apply mtnu_found in Hm as (? & ? & _). done.
Qed.

(** C8. Along any run of [advance] calls during which a downloaded
    piece stays downloaded, whenever a call moves the cursor, the piece it
    moves to was not downloaded at that call nor at any call before it.
    The run completes when every engine seen is in range and the cursor
    starts at a piece index. *)
Theorem advance_never_revisits (es : list engine) (st : State) :
  (Forall (fun e => jump_in_range e 0 0) es → 0 ≤ cursor st →
   ∃ sts, advance_run es st = Ok sts) ∧
  ((∀ (i j : nat) ei ej p, (i ≤ j)%nat → es !! i = Some ei → es !! j = Some ej →
      have_piece ei p = true → have_piece ej p = true) →
   ∀ sts, advance_run es st = Ok sts →
   ∀ (i j : nat) ei before after, (i ≤ j)%nat → es !! i = Some ei →
     (st :: sts) !! j = Some before → sts !! j = Some after →
     cursor after ≠ cursor before →
     have_piece ei (cursor after) = false).
Proof.
  split.
  - revert st. induction es as [|e es IH]; intros st Hes Hc; simpl; [eauto|].
    apply Forall_cons in Hes as [He Hes].
    destruct (jump_total e (cursor st) 0 st) as [st1 H1].
    { unfold jump_in_range in *. lia. }
    unfold advance at 1. rewrite H1. simpl.
    destruct (IH st1 Hes) as [sts ->]; [|simpl; eauto].
    apply advance_cursor in H1 as [->|[_ ?]]; lia.
  - revert st. induction es as [|e es IH]; intros st Hmono sts Hrun i j ei
      before after Hij Hi Hb Ha Hmove; [done|].
    simpl in Hrun. inv_result. subst sts.
    destruct j as [|j]; simpl in *.
    + assert (i = 0%nat) as -> by lia. simpl in Hi.
      injection Hi as <-. injection Hb as <-. injection Ha as <-.
      by apply advance_cursor in Ha0 as [?|[? _]].
    + assert (∃ ej, es !! j = Some ej) as [ej Hej].
      { apply lookup_lt_is_Some. apply lookup_lt_Some in Ha.
        assert (Hlen : ∀ es st sts, advance_run es st = Ok sts →
                  List.length sts = List.length es).
        { clear. induction es as [|e es IH]; intros st sts H; simpl in H.
          - by injection H as <-.
          - inv_result. subst sts. simpl. f_equal. eauto. }
        erewrite <- Hlen; eauto. }
      assert (have_piece ej (cursor after) = false) as Hfalse.
      { eapply (IH a); [|exact Ha1| |exact Hej|exact Hb|exact Ha|exact Hmove]; [|lia].
        intros i' j' ei' ej' p Hij' Hi' Hj'.
        apply (Hmono (S i') (S j')); [lia|done|done]. }
      destruct (have_piece ei (cursor after)) eqn:Hei; [|done].
      rewrite (Hmono i (S j) ei ej (cursor after)) in Hfalse; [done|lia|done|done|done].
Qed.

Lemma advance_never_revisits_witness :
  ∃ sts after,
    advance_run [nothing_yet ti_single; have_below 2 ti_single] initial_state
      = Ok sts ∧
    sts !! 1%nat = Some after ∧ cursor after = 2 ∧
    have_piece (nothing_yet ti_single) (cursor after) = false.
Proof.
  destruct (advance_never_revisits
              [nothing_yet ti_single; have_below 2 ti_single] initial_state)
    as [Htot Hsafe].
  destruct Htot as [sts Hsts].
  { repeat constructor; unfold INT_MAX; simpl; lia. }
  { simpl. lia. }
  assert (sts = match advance_run [nothing_yet ti_single; have_below 2 ti_single]
                        initial_state with
                | Ok x => x
                | _ => []
                end) as Hval by (by rewrite Hsts).
  vm_compute in Hval.
  destruct (sts !! 1%nat) as [after|] eqn:Ha; [|by rewrite Hval in Ha].
  destruct (sts !! 0%nat) as [before|] eqn:Hb; [|by rewrite Hval in Hb].
  assert (cursor after = 2) as Hc2.
  { rewrite Hval in Ha. by injection Ha as <-. }
  assert (cursor before = 0) as Hc0.
  { rewrite Hval in Hb. by injection Hb as <-. }
  exists sts, after. split; [exact Hsts|]. split; [done|]. split; [exact Hc2|].
  apply (Hsafe) with (sts := sts) (i := 0%nat) (j := 1%nat) (before := before);
    try done.
  - intros i j ei ej p Hij Hi Hj.
    destruct i as [|[|i]], j as [|[|j]]; simpl in *; try done; try lia;
      injection Hi as <-; injection Hj as <-; simpl; try done.
  - lia.
  - lia.
Defined.

(** ** Reads *)

Lemma Read_loop_unfilled (e : engine) (fuel : nat) (b index offset size : Z)
  (ps : list Part) :
  Read_loop e fuel b index offset size = Ok ps →
  Forall (fun i => filled i = false) ps.
Proof.
  revert b offset size ps.
  induction fuel as [|fuel IH]; intros b offset size ps; simpl;
    destruct (size <=? 0); try (intros [= <-]; constructor);
    intros H; inv_result;
    destruct (fe_size a <=? offset); try (injection H as <-; constructor);
    try discriminate.
  inv_result. subst ps. constructor; [done|]. eauto.
Qed.

Lemma Read_new_unfilled (e : engine) (b index offset size : Z) (r : Read) :
  Read_new e b index offset size = Ok r →
  Forall (fun i => filled i = false) (parts r).
Proof.
  unfold Read_new. intros H. inv_result. subst r. simpl.
  by eapply Read_loop_unfilled.
Qed.

Lemma Read_trigger_calls (e : engine) (r : Read) (st : State) :
  cursor (Read_trigger e r st) = cursor st ∧
  reads (Read_trigger e r st) = reads st ∧
  files (Read_trigger e r st) = files st ∧
  dirs (Read_trigger e r st) = dirs st ∧
  (∀ c, c ∈ calls st → c ∈ calls (Read_trigger e r st)) ∧
  ∀ i, i ∈ parts r → have_piece e (piece (part i)) = true →
       read_piece (piece (part i)) ∈ calls (Read_trigger e r st).
Proof.
  unfold Read_trigger. destruct r as [ps]. simpl. revert st.
  induction ps as [|p ps IH]; intros st; simpl.
  { repeat split; try done. by intros i ?%elem_of_nil. }
  destruct (IH (if have_piece e (piece (part p))
                then call (read_piece (piece (part p))) st else st))
    as (H1 & H2 & H3 & H4 & H5 & H6).
  split; [by destruct (have_piece e (piece (part p)))|].
  split; [by destruct (have_piece e (piece (part p)))|].
  split; [by destruct (have_piece e (piece (part p)))|].
  split; [by destruct (have_piece e (piece (part p)))|].
  split.
  - intros c Hc. apply H5.
    destruct (have_piece e (piece (part p))); [|done].
    simpl. by apply elem_of_cons; right.
  - intros i [->|Hi]%elem_of_cons Hh; [|by apply H6].
    apply H5. rewrite Hh. simpl. by apply elem_of_cons; left.
Qed.

Lemma fresh_addr_above (rs : list (nat * Read)) (ar : nat * Read) :
  ar ∈ rs → (ar.1 < fresh_addr rs)%nat.
Proof.
  unfold fresh_addr. induction rs as [|x rs IH]; [by intros ?%elem_of_nil|].
  intros [->|Hin]%elem_of_cons; simpl; [lia|]. specialize (IH Hin). lia.
Qed.

Lemma remove_fresh (rs : list (nat * Read)) (r : Read) :
  filter (fun ar => ar.1 ≠ fresh_addr rs) (rs ++ [(fresh_addr rs, r)]) = rs.
Proof.
  rewrite filter_app, filter_singleton_False by (simpl; auto).
  rewrite app_nil_r.
  assert (∀ a l, Forall (fun ar : nat * Read => ar.1 ≠ a) l →
            filter (fun ar : nat * Read => ar.1 ≠ a) l = l) as Hall.
  { intros a l. induction 1 as [|x l Hx _ IH]; [done|].
    rewrite filter_cons_True by done. by f_equal. }
  apply Hall. apply Forall_forall. intros ar Har%fresh_addr_above. lia.
Qed.

Lemma Read_loop_at_end (e : engine) (fuel : nat) (b index offset size : Z)
  (f : file_entry) :
  file_at (info e) index = Ok f → fe_size f ≤ offset →
  Read_loop e fuel b index offset size = Ok [].
Proof.
  intros Hf Ho%Z.leb_le.
  destruct fuel; simpl; destruct (size <=? 0); try done;
    rewrite Hf, bind_Ok_l; by rewrite Ho.
Qed.

(** ** C7 *)

(** C7. A read at an offset at or past the end of its file has no parts:
    [Read::read] returns 0 at once, without a call to the engine, a change
    of state or a wait; and [btfs_read], for an offset that fits an [int],
    hands that 0 to its caller and leaves no pending read behind. *)
Theorem read_past_end (e : engine) (b index offset size : Z) (f : file_entry)
  (st : State) :
  file_at (info e) index = Ok f → fe_size f ≤ offset →
  Read_new e b index offset size = Ok (mk_Read []) ∧
  Read_read e (mk_Read []) st = Ok (Returned 0, st) ∧
  ∀ path f', dirs st !! path = None → files st !! path = Some (f', index) →
    INT_MIN ≤ offset ≤ INT_MAX →
    btfs_read e path b size offset st = Ok (Returned 0, st).
Proof.
  intros Hf Hoff.
  assert (∀ o sz, fe_size f ≤ o → Read_new e b index o sz = Ok (mk_Read [])) as Hnew.
  { intros o sz Ho. unfold Read_new.
    by rewrite (Read_loop_at_end e _ b index o sz f). }
  split; [by apply Hnew|]. split; [done|].
  intros path f' Hd Hp Hrange. unfold btfs_read, btfs_read_parts.
  rewrite Hd, Hp, Hf. simpl.
  assert (to_int offset = offset) as ->.
  { unfold to_int, INT_MIN, INT_MAX in *.
    rewrite Z.mod_small by lia. lia. }
  rewrite Hnew by done. simpl.
  unfold remove_read, set_reads. simpl. rewrite remove_fresh.
  by destruct st.
Qed.

Lemma read_past_end_witness :
  Read_new (nothing_yet ti_single) 0 0 50000 1000 = Ok (mk_Read []) ∧
  Read_read (nothing_yet ti_single) (mk_Read []) initial_state
    = Ok (Returned 0, initial_state).
Proof.
  destruct (read_past_end (nothing_yet ti_single) 0 0 50000 1000
              (mk_file_entry "a.bin" 0 50000) initial_state) as (H1 & H2 & _).
  - reflexivity.
  - simpl. lia.
  - split; [exact H1 | exact H2].
Defined.

(** ** C3 *)

(** C3 as stated does not hold: with every piece downloaded, a read of
    the first 1000 bytes asks for piece 0 to be delivered and waits. *)
Lemma read_of_downloaded_pieces_waits :
  ¬ (∀ (e : engine) (b index offset size : Z) (r : Read) (st : State)
       (out : read_status) (st' : State),
       Read_new e b index offset size = Ok r →
       Forall (fun i => have_piece e (piece (part i)) = true) (parts r) →
       Read_read e r st = Ok (out, st') → out ≠ Waiting).
Proof.
  intros H.
  apply (H (seeded ti_single) 0 0 0 1000
           (mk_Read [mk_Part (mk_peer_request 0 0 1000) 0 false])
           initial_state Waiting (call (read_piece 0) initial_state));
    [reflexivity | by repeat constructor | reflexivity | reflexivity].
Qed.

(** C3, amended.  [Read::read] returns without waiting only when the read
    has no bytes.  A read of positive size none of whose parts is filled
    yet, as [Read::Read] builds it, asks the engine to deliver the piece of
    every part that lies in a downloaded piece and then waits, whether or
    not all its pieces are downloaded: a part is filled only when the
    alert thread handles the delivery.  The call completes, waiting, on
    every input [jump] has in range. *)
Theorem read_waits_for_delivery (e : engine) (r : Read) (st : State) (s : Z) :
  Read_size r = Ok s → 0 < s →
  Forall (fun i => filled i = false) (parts r) →
  (∀ front, head (parts r) = Some front →
     jump_in_range e (piece (part front)) s →
     ∃ st', Read_read e r st = Ok (Waiting, st')) ∧
  ∀ out st', Read_read e r st = Ok (out, st') →
    out = Waiting ∧
    ∀ i, i ∈ parts r → have_piece e (piece (part i)) = true →
         read_piece (piece (part i)) ∈ calls st'.
Proof.
  intros Hs Hpos Hun.
  assert (Read_finished r = false) as Hfin.
  { unfold Read_finished. destruct r as [[|p ps]]; simpl in *.
    - injection Hs as <-. lia.
    - apply Forall_cons in Hun as [-> _]. done. }
  assert ((s <=? 0) = false) as Hs0 by (apply Z.leb_gt; lia).
  split.
  - intros front Hfront Hrange. unfold Read_read.
    rewrite Hs, bind_Ok_l, Hs0.
    destruct (parts r) as [|p ps] eqn:Hps; [discriminate|].
    injection Hfront as ->. rewrite !bind_Ok_l.
    destruct (jump_total e (piece (part front)) s (Read_trigger e r st) Hrange)
      as [st' ->].
    rewrite bind_Ok_l. unfold Read_wait. rewrite Hfin. simpl. eauto.
  - intros out st'. unfold Read_read. rewrite Hs, bind_Ok_l, Hs0.
    intros H. inv_result. unfold Read_wait in H. rewrite Hfin in H. simpl in H.
    injection H as <- <-. split; [done|].
    intros i Hi Hh.
    destruct (Read_trigger_calls e r st) as (_ & _ & _ & _ & _ & Htr).
    apply jump_calls in Ha1 as (us & ns & -> & _).
    rewrite !elem_of_app. right. right. by apply Htr.
Qed.

Lemma read_waits_for_delivery_witness :
  ∃ st', Read_read (seeded ti_single)
           (mk_Read [mk_Part (mk_peer_request 0 0 1000) 0 false]) initial_state
         = Ok (Waiting, st') ∧
         read_piece 0 ∈ calls st'.
Proof.
  destruct (read_waits_for_delivery (seeded ti_single)
              (mk_Read [mk_Part (mk_peer_request 0 0 1000) 0 false])
              initial_state 1000) as [Htot Hpart].
  - reflexivity.
  - lia.
  - by repeat constructor.
  - destruct (Htot (mk_Part (mk_peer_request 0 0 1000) 0 false)) as [st' Hst'].
    + reflexivity.
    + unfold jump_in_range, INT_MAX. simpl. lia.
    + exists st'. split; [exact Hst'|].
      destruct (Hpart Waiting st' Hst') as [_ Hreq].
      apply (Hreq (mk_Part (mk_peer_request 0 0 1000) 0 false)).
      * apply elem_of_cons. by left.
      * reflexivity.
Defined.

(** ** C1 and C6 *)

Lemma file_at_Ok (ti : torrent_info) (index : Z) (f : file_entry) :
  file_at ti index = Ok f →
  0 ≤ index < num_files ti ∧ ti_files ti !! Z.to_nat index = Some f.
Proof.
  unfold file_at.
  destruct (Z.leb_spec 0 index); [|discriminate].
  destruct (Z.ltb_spec index (num_files ti)); [|discriminate]. simpl.
  destruct (ti_files ti !! Z.to_nat index); [|discriminate].
  intros [= ->]. split; [lia|done].
Qed.

(** C1. The parts of a read of [L] bytes at offset [O] of a file of [F]
    bytes are to add up to [min L (F - O)].  They do not when the read runs
    past the end of a file that is followed by another: [btfs_read] cuts
    the length to the file size, not to what is left of the file after the
    offset, and [Read::Read] cuts a part at the end of its piece, not at
    the end of the file.  In a torrent of two files of 50000 bytes and
    pieces of 16384 bytes, the read of 1000 bytes at offset 49999 of the
    first file yields one part of 1000 bytes, where [min 1000 (50000 -
    49999)] is 1. *)
Theorem btfs_read_parts_past_file_end :
  valid_torrent ti_pair = true ∧
  file_at ti_pair 0 = Ok (mk_file_entry "a.bin" 0 50000) ∧
  btfs_read_parts (nothing_yet ti_pair) 0 0 1000 49999
    = Ok (mk_Read [mk_Part (mk_peer_request 3 847 1000) 0 false]) ∧
  Read_size (mk_Read [mk_Part (mk_peer_request 3 847 1000) 0 false])
    = Ok 1000 ∧
  Z.min 1000 (50000 - 49999) = 1.
Proof. repeat split; vm_compute; reflexivity. Qed.

(** The companion scenario: reading the whole file of the one-file
    torrent yields four parts, one per piece, the last of 848 bytes. *)
Example read_whole_file :
  btfs_read_parts (nothing_yet ti_single) 0 0 50000 0
  = Ok (mk_Read [mk_Part (mk_peer_request 0 0 16384) 0 false;
                 mk_Part (mk_peer_request 1 0 16384) 16384 false;
                 mk_Part (mk_peer_request 2 0 16384) 32768 false;
                 mk_Part (mk_peer_request 3 0 848) 49152 false]).
Proof. vm_compute. reflexivity. Qed.

(** C6 as stated does not hold: in the torrent that is this one file,
    the part is not at in-piece offset 15983. *)
Lemma last_byte_part_not_at_15983 :
  ¬ (∃ i, btfs_read_parts (nothing_yet ti_single) 0 0 1000 49999
            = Ok (mk_Read [i]) ∧
          piece (part i) = 3 ∧ start (part i) = 15983 ∧ length (part i) = 1).
Proof.
  intros (i & H & _ & Hstart & _). vm_compute in H.
  injection H as <-. simpl in Hstart. discriminate.
Qed.

(** C6, amended.  In a torrent of 50000 bytes in four pieces of 16384
    bytes, made of one file of 50000 bytes at offset 0, the read of 1000
    bytes at offset 49999 yields exactly one part: 1 byte of piece 3 at
    in-piece offset 847 (49999 - 3 * 16384). *)
Theorem read_last_byte (e : engine) (b index : Z) (f : file_entry) :
  piece_length (info e) = 16384 → num_pieces (info e) = 4 →
  total_size (info e) = 50000 →
  file_at (info e) index = Ok f → fe_offset f = 0 → fe_size f = 50000 →
  btfs_read_parts e b index 1000 49999
    = Ok (mk_Read [mk_Part (mk_peer_request 3 847 1) b false]).
Proof.
  intros Hpl Hnp Htot Hf Hoff Hsize.
  destruct (file_at_Ok _ _ _ Hf) as [Hidx Hlook].
  unfold btfs_read_parts, Read_new. rewrite Hf, bind_Ok_l, Hsize.
  change (to_int 49999) with 49999.
  change (to_int (1000 `min` 50000)) with 1000.
  assert (Z.to_nat 1000 = S (Z.to_nat 999)) as -> by lia.
  generalize (Z.to_nat 999). intros fuel.
  assert (map_file (info e) index 49999 1000 = mk_peer_request 3 847 1) as Hmap.
  { unfold map_file.
    destruct (Z.ltb_spec index 0) as [?|_]; [lia|].
    destruct (Z.leb_spec (num_files (info e)) index) as [?|_]; [lia|].
    cbn [orb]. rewrite Hlook, Hoff, Htot, Hpl. reflexivity. }
  assert (piece_size (info e) 3 = 848) as Hps.
  { unfold piece_size. rewrite Hnp, Htot, Hpl. reflexivity. }
  cbn [Read_loop]. change (1000 <=? 0) with false. cbv iota.
  rewrite Hf, bind_Ok_l, Hsize. change (50000 <=? 49999) with false. cbv iota.
  rewrite Hmap. cbn [piece start length]. rewrite Hps.
  change (int (848 - 847)) with (Ok 1). rewrite bind_Ok_l.
  change (1 `min` 1) with 1. cbn [piece start length].
  change (int (1000 - 1)) with (Ok 999). rewrite bind_Ok_l.
  change (int (49999 + 1)) with (Ok 50000). rewrite bind_Ok_l.
  rewrite (Read_loop_at_end e fuel (b + 1) index 50000 999 f) by (done || lia).
  reflexivity.
Qed.

Lemma read_last_byte_witness :
  btfs_read_parts (nothing_yet ti_single) 0 0 1000 49999
    = Ok (mk_Read [mk_Part (mk_peer_request 3 847 1) 0 false]).
Proof.
  apply (read_last_byte (nothing_yet ti_single) 0 0
           (mk_file_entry "a.bin" 0 50000)); reflexivity.
Defined.

(** ** Decomposition of a read that stays inside its file *)

Lemma to_int_small (z : Z) : INT_MIN ≤ z ≤ INT_MAX → to_int z = z.
Proof.
  unfold to_int, INT_MIN, INT_MAX. intros H. rewrite Z.mod_small by lia. lia.
Qed.

Lemma files_total_nonneg (from : Z) (fs : list file_entry) :
  files_laid_out from fs = true → 0 ≤ files_total fs.
Proof.
  revert from. induction fs as [|f fs IH]; intros from; simpl; [lia|].
  intros [[_ Hs%Z.leb_le]%andb_prop Hfs%IH]%andb_prop. lia.
Qed.

Lemma files_laid_out_lookup (from : Z) (fs : list file_entry) (k : nat)
  (f : file_entry) :
  files_laid_out from fs = true → fs !! k = Some f →
  from ≤ fe_offset f ∧ 0 ≤ fe_size f ∧
  fe_offset f + fe_size f ≤ from + files_total fs.
Proof.
  revert from k. induction fs as [|g fs IH]; intros from k; [done|].
  simpl. intros [[Ho%Z.eqb_eq Hs%Z.leb_le]%andb_prop Hfs]%andb_prop Hk.
  pose proof (files_total_nonneg _ _ Hfs).
  destruct k as [|k]; simpl in Hk.
  - injection Hk as <-. lia.
  - destruct (IH _ _ Hfs Hk) as (? & ? & ?). lia.
Qed.

Lemma valid_torrent_facts (ti : torrent_info) :
  valid_torrent ti = true →
  0 < piece_length ti ≤ INT_MAX ∧
  files_laid_out 0 (ti_files ti) = true ∧
  total_size ti = files_total (ti_files ti) ∧
  num_pieces ti = (total_size ti + piece_length ti - 1) / piece_length ti ∧
  num_pieces ti ≤ INT_MAX.
Proof.
  unfold valid_torrent.
  intros [[[[[H1%Z.ltb_lt H2%Z.leb_le]%andb_prop H3]%andb_prop
    H4%Z.eqb_eq]%andb_prop H5%Z.eqb_eq]%andb_prop H6%Z.leb_le]%andb_prop.
  repeat split; done.
Qed.

(** One step of the geometry: where byte [abs] of a valid torrent lies. *)
Lemma piece_of_byte (ti : torrent_info) (abs : Z) :
  valid_torrent ti = true → 0 ≤ abs < total_size ti →
  let q := abs / piece_length ti in
  let r := abs mod piece_length ti in
  0 ≤ q < num_pieces ti ∧ 0 ≤ r < piece_length ti ∧
  q * piece_length ti + r = abs ∧
  0 < piece_size ti q - r ∧ piece_size ti q ≤ piece_length ti ∧
  abs + (piece_size ti q - r) ≤ total_size ti ∧
  (q < num_pieces ti - 1 →
   abs + (piece_size ti q - r) = (q + 1) * piece_length ti) ∧
  (q = num_pieces ti - 1 → abs + (piece_size ti q - r) = total_size ti).
Proof.
  intros (Hpl & _ & _ & Hnp & Hmax)%valid_torrent_facts Habs q r.
  set (pl := piece_length ti) in *. set (tot := total_size ti) in *.
  assert (abs = pl * q + r) as Hdm by (apply Z.div_mod; lia).
  assert (0 ≤ r < pl) as Hr by (apply Z.mod_pos_bound; lia).
  assert (num_pieces ti = (tot - 1) / pl + 1) as Hnp'.
  { rewrite Hnp. replace (tot + pl - 1) with (tot - 1 + 1 * pl) by lia.
    rewrite Z.div_add by lia. done. }
  assert (tot - 1 = pl * ((tot - 1) / pl) + (tot - 1) mod pl) as Hdm'
    by (apply Z.div_mod; lia).
  assert (0 ≤ (tot - 1) mod pl < pl) as Hr' by (apply Z.mod_pos_bound; lia).
  assert (q ≤ (tot - 1) / pl) as Hq by (apply Z.div_le_mono; lia).
  assert (0 ≤ q) as Hq0 by (apply Z.div_pos; lia).
  set (n1 := (tot - 1) / pl) in *.
  unfold piece_size. fold pl tot. rewrite Hnp'.
  replace (n1 + 1 - 1) with n1 by lia.
  destruct (Z.eqb_spec q n1) as [Heq|Hne].
  - rewrite to_int_small by (unfold INT_MIN, INT_MAX in *; nia).
    repeat split; try lia; try nia.
  - assert (q + 1 ≤ n1) by lia.
    repeat split; try lia; try nia.
Qed.

Lemma tiles_cons (ti : torrent_info) (abs b : Z) (i : Part) (ps : list Part) :
  tiles ti abs b (i :: ps) =
  (piece (part i) * piece_length ti + start (part i) = abs ∧
   0 ≤ piece (part i) < num_pieces ti ∧
   0 ≤ start (part i) ∧ 0 < length (part i) ∧
   start (part i) + length (part i) ≤ piece_size ti (piece (part i)) ∧
   buf i = b ∧ filled i = false ∧
   match ps with
   | [] => True
   | j :: _ => piece (part j) = piece (part i) + 1
   end ∧
   tiles ti (abs + length (part i)) (b + length (part i)) ps).
Proof. reflexivity. Qed.

Lemma sum_lengths_cons (s : Z) (i : Part) (ps : list Part) :
  sum_lengths s (i :: ps) =
  int (s + length (part i)) ≫= fun s' => sum_lengths s' ps.
Proof. reflexivity. Qed.

Lemma Read_loop_inside (e : engine) (index : Z) (f : file_entry) :
  valid_torrent (info e) = true → file_at (info e) index = Ok f →
  ∀ (fuel : nat) (b offset size : Z),
    0 ≤ offset → 0 < size → offset + size ≤ fe_size f →
    offset + size ≤ INT_MAX → size ≤ Z.of_nat fuel →
    ∃ i ps,
      Read_loop e fuel b index offset size = Ok (i :: ps) ∧
      piece (part i) = (fe_offset f + offset) / piece_length (info e) ∧
      tiles (info e) (fe_offset f + offset) b (i :: ps) ∧
      ∀ s0, 0 ≤ s0 → s0 + size ≤ INT_MAX →
            sum_lengths s0 (i :: ps) = Ok (s0 + size).
Proof.
  intros Hvalid Hf.
  destruct (file_at_Ok _ _ _ Hf) as [Hidx Hlook].
  destruct (valid_torrent_facts _ Hvalid) as (Hpl & Hlaid & Htot & Hnp & Hmax).
  destruct (files_laid_out_lookup _ _ _ _ Hlaid Hlook) as (HA & HF & HAF).
  rewrite <- Htot in HAF.
  induction fuel as [|fuel IH]; intros b offset size Ho Hs Hin Hint Hfuel;
    [lia|].
  cbn [Read_loop].
  destruct (Z.leb_spec size 0) as [?|_]; [lia|].
  rewrite Hf, bind_Ok_l.
  destruct (Z.leb_spec (fe_size f) offset) as [?|_]; [lia|].
  set (abs := fe_offset f + offset).
  assert (0 ≤ abs < total_size (info e)) as Habs by (unfold abs; lia).
  destruct (piece_of_byte _ abs Hvalid Habs)
    as (Hq & Hr & Hdm & Hroom & Hps & Hend & Hnext & Hfinal).
  set (q := abs / piece_length (info e)) in *.
  set (r := abs mod piece_length (info e)) in *.
  assert (map_file (info e) index offset size = mk_peer_request q r size) as ->.
  { unfold map_file.
    destruct (Z.ltb_spec index 0) as [?|_]; [lia|].
    destruct (Z.leb_spec (num_files (info e)) index) as [?|_]; [lia|].
    cbn [orb]. rewrite Hlook.
    replace (offset + fe_offset f) with abs by (unfold abs; lia).
    destruct (Z.leb_spec (total_size (info e)) abs) as [?|_]; [lia|].
    destruct (Z.ltb_spec (total_size (info e)) (abs + size)) as [?|_];
      [unfold abs in *; lia|].
    rewrite Z.quot_div_nonneg, Z.rem_mod_nonneg by lia. fold q r.
    rewrite !to_int_small by (unfold INT_MIN, INT_MAX in *; lia). done. }
  cbn [piece start length].
  set (room := piece_size (info e) q - r) in *.
  rewrite (int_in_range room), bind_Ok_l by (unfold INT_MIN, INT_MAX in *; lia).
  cbn [piece start length].
  set (len := room `min` size).
  assert (0 < len ≤ size ∧ len ≤ room) as Hlen by (unfold len; lia).
  rewrite (int_in_range (size - len)), bind_Ok_l
    by (unfold INT_MIN, INT_MAX in *; lia).
  rewrite (int_in_range (offset + len)), bind_Ok_l
    by (unfold INT_MIN, INT_MAX in *; lia).
  destruct (Z.eq_dec len size) as [Hlast|Hmore].
  - (* the read ends in this piece *)
    assert (Read_loop e fuel (b + len) index (offset + len) (size - len) = Ok [])
      as ->.
    { destruct fuel; cbn [Read_loop];
        (destruct (Z.leb_spec (size - len) 0) as [_|?]; [done|lia]). }
    rewrite bind_Ok_l. eexists _, []. split; [done|]. split; [done|].
    split.
    + simpl. fold room. repeat split; try lia.
    + intros s0 H0 H1. simpl.
      rewrite int_in_range by (unfold INT_MIN, INT_MAX in *; lia).
      simpl. f_equal. lia.
  - (* the part runs to the end of its piece and the next part follows *)
    assert (len = room) as Hroomlen by (unfold len in *; lia).
    assert (q < num_pieces (info e) - 1) as Hq1.
    { destruct (Z.lt_ge_cases q (num_pieces (info e) - 1)); [done|].
      assert (abs + room = total_size (info e)) by (apply Hfinal; lia).
      unfold abs in *. lia. }
    specialize (Hnext Hq1).
    destruct (IH (b + len) (offset + len) (size - len))
      as (j & ps & -> & Hj & Htiles & Hsum); try lia.
    rewrite bind_Ok_l. eexists _, (j :: ps). split; [done|]. split; [done|].
    replace (fe_offset f + (offset + len)) with (abs + len) in *
      by (unfold abs; lia).
    split.
    + rewrite tiles_cons. cbn [new_Part part buf filled piece start length].
      fold room. split_and!; try lia; try done.
      rewrite Hj, Hroomlen, Hnext. rewrite Z.div_mul by lia. done.
    + intros s0 H0 H1. rewrite sum_lengths_cons. cbn [new_Part part length].
      rewrite int_in_range, bind_Ok_l by (unfold INT_MIN, INT_MAX in *; lia).
      rewrite Hsum by lia. f_equal. lia.
Qed.

(** A read that stays inside its file is decomposed as the specification
    says: the parts add up to the requested length, which is then
    [min size (fe_size f - offset)], and tile the byte range piece by
    piece.  C1 fails only past the end of the file. *)
Lemma decomposition_inside_file (e : engine) (b index size offset : Z)
  (f : file_entry) :
  valid_torrent (info e) = true → file_at (info e) index = Ok f →
  0 ≤ offset → 0 < size → offset + size ≤ fe_size f →
  offset + size ≤ INT_MAX →
  ∃ ps, btfs_read_parts e b index size offset = Ok (mk_Read ps) ∧
        Read_size (mk_Read ps) = Ok (Z.min size (fe_size f - offset)) ∧
        tiles (info e) (fe_offset f + offset) b ps.
Proof.
  intros Hvalid Hf Ho Hs Hin Hint.
  unfold btfs_read_parts, Read_new. rewrite Hf, bind_Ok_l.
  rewrite !to_int_small by (unfold INT_MIN, INT_MAX in *; lia).
  replace (size `min` fe_size f) with size by lia.
  destruct (Read_loop_inside e index f Hvalid Hf (Z.to_nat size) b offset size)
    as (i & ps & -> & _ & Htiles & Hsum); try lia.
  rewrite bind_Ok_l. exists (i :: ps). split; [done|]. split; [|done].
  unfold Read_size. cbn [parts]. rewrite Hsum by lia.
  f_equal. lia.
Qed.

(** Delivery: once [Read::copy] has run for the piece of every part, the
    read is finished, and its wait loop returns its size. *)
Lemma Read_copy_finishes (pcs : list Z) (r : Read) :
  Forall (fun i => filled i = true ∨ piece (part i) ∈ pcs) (parts r) →
  Read_finished (fold_left Read_copy pcs r) = true.
Proof.
  revert r. induction pcs as [|pc pcs IH]; intros [ps] Hall; simpl in *.
  - unfold Read_finished. simpl. apply forallb_forall.
    intros i Hi%list_elem_of_In. rewrite Forall_forall in Hall.
    destruct (Hall i Hi) as [?|?%elem_of_nil]; done.
  - apply IH. unfold Read_copy. simpl. rewrite Forall_forall in Hall.
    apply Forall_forall. intros i' (i & -> & Hi)%list_elem_of_fmap.
    destruct (Hall i Hi) as [Hfilled|[Hpc|Hin]%elem_of_cons].
    + rewrite Hfilled, andb_false_r. by left.
    + rewrite Hpc, Z.eqb_refl. destruct (filled i) eqn:Hfi; simpl; by left.
    + destruct ((piece (part i) =? pc) && negb (filled i)); simpl; [by left|by right].
Qed.

Lemma Read_delivered (r : Read) :
  Read_finished (fold_left Read_copy (map (fun i => piece (part i)) (parts r)) r)
  = true.
Proof.
  apply Read_copy_finishes, Forall_forall. intros i Hi. right.
  apply list_elem_of_fmap. eauto.
Qed.

(** ** C9: the namespace *)

Lemma setup_files_fields (i : Z) (fs : list file_entry) (st : State) :
  setup_files i fs st =
  mk_State (cursor st) (reads st) (files_after i fs (files st))
    (dirs_after fs (dirs st)) (priority_resets i fs ++ calls st).
Proof.
  revert i st. induction fs as [|f fs IH]; intros i st; simpl.
  - by destruct st.
  - rewrite IH. simpl. by rewrite <- app_assoc.
Qed.

Lemma files_after_union (i : Z) (fs : list file_entry)
  (m : gmap string (file_entry * Z)) :
  files_after i fs m = files_after i fs ∅ ∪ m.
Proof.
  revert i m. induction fs as [|f fs IH]; intros i m; simpl.
  - by rewrite (left_id_L ∅ (∪)).
  - rewrite IH, (IH _ (<[_:=_]> ∅)).
    rewrite <- (assoc_L (∪)). f_equal.
    rewrite insert_union_singleton_l. f_equal.
Qed.

Lemma files_after_twice (i : Z) (fs : list file_entry)
  (m : gmap string (file_entry * Z)) :
  files_after i fs (files_after i fs m) = files_after i fs m.
Proof.
  rewrite (files_after_union i fs (files_after i fs m)).
  rewrite (files_after_union i fs m).
  by rewrite (assoc_L (∪)), (idemp_L (∪)).
Qed.

Lemma dirs_insert_has (d : gmap string (gset string)) (k x : string) :
  dir_has (dirs_insert k x d) k x.
Proof.
  unfold dir_has, dirs_insert. eexists. rewrite lookup_insert_eq.
  split; [done|]. set_solver.
Qed.

Lemma dirs_insert_mono (d : gmap string (gset string)) (k x k' x' : string) :
  dir_has d k' x' → dir_has (dirs_insert k x d) k' x'.
Proof.
  unfold dir_has, dirs_insert. intros (S & HS & Hx).
  destruct (decide (k = k')) as [->|Hne].
  - eexists. rewrite lookup_insert_eq. split; [done|]. rewrite HS. simpl.
    set_solver.
  - exists S. by rewrite lookup_insert_ne.
Qed.

Lemma dirs_insert_id (d : gmap string (gset string)) (k x : string) :
  dir_has d k x → dirs_insert k x d = d.
Proof.
  unfold dir_has, dirs_insert. intros (S & HS & Hx).
  apply insert_id. rewrite HS. simpl. f_equal.
  symmetry. apply subseteq_union_1_L. by apply singleton_subseteq_l.
Qed.

Lemma apply_ops_mono (ops : list (string * string))
  (d : gmap string (gset string)) (k x : string) :
  dir_has d k x → dir_has (apply_ops ops d) k x.
Proof.
  revert d. induction ops as [|[k' x'] ops IH]; intros d H; [done|].
  simpl. apply IH. by apply dirs_insert_mono.
Qed.

Lemma apply_ops_has (ops : list (string * string))
  (d : gmap string (gset string)) :
  Forall (fun kx => dir_has (apply_ops ops d) kx.1 kx.2) ops.
Proof.
  revert d. induction ops as [|[k x] ops IH]; intros d; [constructor|].
  constructor; [|apply IH].
  simpl. apply apply_ops_mono, dirs_insert_has.
Qed.

Lemma apply_ops_id (ops : list (string * string))
  (d : gmap string (gset string)) :
  Forall (fun kx => dir_has d kx.1 kx.2) ops → apply_ops ops d = d.
Proof.
  intros Hall. induction Hall as [|[k x] ops Hkx Hrest IH]; [done|].
  simpl in *. by rewrite dirs_insert_id.
Qed.

Lemma setup_path_ops (parent : string) (xs : list string)
  (d : gmap string (gset string)) :
  setup_path parent xs d = apply_ops (path_ops parent xs) d.
Proof.
  revert parent d. induction xs as [|x xs IH]; intros parent d; [done|].
  simpl. destruct (String.length x <=? 0)%nat; [apply IH|].
  rewrite IH. simpl. by destruct (String.length parent <=? 0)%nat.
Qed.

Lemma dirs_after_ops (fs : list file_entry) (d : gmap string (gset string)) :
  dirs_after fs d =
  apply_ops (concat (map (fun f => path_ops "" (strtok "" (fe_path f))) fs)) d.
Proof.
  revert d. induction fs as [|f fs IH]; intros d; [done|].
  simpl. rewrite IH, setup_path_ops. unfold apply_ops.
  by rewrite fold_left_app.
Qed.

Lemma dirs_after_twice (fs : list file_entry) (d : gmap string (gset string)) :
  dirs_after fs (dirs_after fs d) = dirs_after fs d.
Proof.
  rewrite !dirs_after_ops. apply apply_ops_id, apply_ops_has.
Qed.

(** C9 as stated does not hold: [setup] has no guard, and the handler
    runs it again in full. *)
Lemma metadata_again_is_not_a_no_op :
  ¬ (∀ (e : engine) (st : State),
       handle_metadata_received_alert e (handle_metadata_received_alert e st)
       = handle_metadata_received_alert e st).
Proof.
  intros H. specialize (H (nothing_yet ti_pair) initial_state).
  apply (f_equal (fun s => List.length (calls s))) in H.
  vm_compute in H. discriminate.
Qed.

(** C9, amended.  Handling a further metadata-ready notification for the
    same torrent runs [setup] again.  It leaves the namespace as it was
    built, both the files map and the dirs map, and likewise the cursor and
    the pending reads; and it hands the engine, once more, the two rate
    limits and priority 0 for every file. *)
Theorem metadata_again_keeps_namespace (e : engine) (st : State) :
  let st1 := handle_metadata_received_alert e st in
  let st2 := handle_metadata_received_alert e st1 in
  files st2 = files st1 ∧ dirs st2 = dirs st1 ∧
  cursor st2 = cursor st1 ∧ reads st2 = reads st1 ∧
  calls st2 =
    priority_resets 0 (ti_files (info e)) ++
    [set_upload_limit 655360; set_download_limit 655360] ++ calls st1.
Proof.
  unfold handle_metadata_received_alert, setup. rewrite !setup_files_fields.
  simpl. rewrite files_after_twice, dirs_after_twice. done.
Qed.

(** * Further properties *)

(** ** The scheduler *)

(** [move_to_next_unfinished] finds the first undownloaded piece at or
    after [p]: it answers true with [t] exactly when [t] is a piece of the
    torrent that is not downloaded and every piece from [p] up to [t] is,
    and false exactly when every piece from [p] on is downloaded, the
    reference parameter then standing at [num_pieces] (or where it was, if
    already past it). *)
Theorem move_to_next_unfinished_finds_first (e : engine) (p t : Z) :
  (move_to_next_unfinished e p = (true, t) ↔
   p ≤ t < num_pieces (info e) ∧ have_piece e t = false ∧
   ∀ i, p ≤ i < t → have_piece e i = true) ∧
  (move_to_next_unfinished e p = (false, t) ↔
   t = Z.max p (num_pieces (info e)) ∧
   ∀ i, p ≤ i < num_pieces (info e) → have_piece e i = true).
Proof.
  split; split.
  - apply mtnu_found.
  - intros (H1 & H2 & H3). by apply mtnu_first.
  - apply mtnu_none.
  - intros [-> H]. by apply mtnu_all.
Qed.

Lemma unfinished_from_found (e : engine) (p t : Z) :
  move_to_next_unfinished e p = (true, t) →
  unfinished_from e p = t :: unfinished_from e (t + 1).
Proof.
  intros (Ht & Hf & Hall)%mtnu_found. unfold unfinished_from.
  replace (num_pieces (info e) - p)
    with ((t - p) + (1 + (num_pieces (info e) - (t + 1)))) by lia.
  rewrite seqZ_app by lia. rewrite filter_app.
  replace (p + (t - p)) with t by lia.
  rewrite (seqZ_cons t) by lia.
  replace (Z.pred (1 + (num_pieces (info e) - (t + 1))))
    with (num_pieces (info e) - (t + 1)) by lia.
  rewrite filter_cons_True by done.
  replace (Z.succ t) with (t + 1) by lia.
  assert (filter (fun i => have_piece e i = false) (seqZ p (t - p)) = []) as ->;
    [|done].
  apply elem_of_nil_inv. intros i [Hi Hin%elem_of_seqZ]%list_elem_of_filter.
  rewrite Hall in Hi by lia. discriminate.
Qed.

Lemma unfinished_from_none (e : engine) (p t : Z) :
  move_to_next_unfinished e p = (false, t) → unfinished_from e p = [].
Proof.
  intros (_ & Hall)%mtnu_none. unfold unfinished_from.
  apply elem_of_nil_inv. intros i [Hi Hin%elem_of_seqZ]%list_elem_of_filter.
  rewrite Hall in Hi by lia. discriminate.
Qed.

(** The urgent loop, exactly: the pieces it gives priority 7 are the next
    undownloaded pieces, as many as turns are left. *)
Lemma urgent_loop_exact (e : engine) (fuel : nat) (pl b tail : Z) (st : State)
  r st' :
  0 < pl →
  urgent_loop e fuel pl b tail st = Ok (r, st') →
  ∃ us : list Z,
    st' = with_calls (prio_calls 7 us ++ calls st) st ∧
    reverse us = take (Z.to_nat ((2097152 - b + pl - 1) / pl))
                   (unfinished_from e tail).
Proof.
  intros Hpl. revert b tail st r st'.
  assert (∀ b, 2097152 ≤ b → Z.to_nat ((2097152 - b + pl - 1) / pl) = O) as Hzero.
  { intros b Hb.
    assert ((2097152 - b + pl - 1) / pl ≤ 0); [|lia].
    apply Z.lt_succ_r. apply Z.div_lt_upper_bound; lia. }
  assert (∀ b, b < 2097152 →
            Z.to_nat ((2097152 - b + pl - 1) / pl)
            = S (Z.to_nat ((2097152 - (b + pl) + pl - 1) / pl))) as Hsucc.
  { intros b Hb.
    replace (2097152 - b + pl - 1) with (2097152 - (b + pl) + pl - 1 + 1 * pl)
      by lia.
    rewrite Z.div_add by lia.
    assert (-1 ≤ (2097152 - (b + pl) + pl - 1) / pl).
    { apply Z.div_le_lower_bound; lia. }
    destruct (Z.eq_dec ((2097152 - (b + pl) + pl - 1) / pl) (-1)) as [Heq|Hne].
    - exfalso.
      assert (2097152 - (b + pl) + pl - 1
              = pl * ((2097152 - (b + pl) + pl - 1) / pl)
                + (2097152 - (b + pl) + pl - 1) mod pl) as Hdm
        by (apply Z.div_mod; lia).
      assert (0 ≤ (2097152 - (b + pl) + pl - 1) mod pl < pl)
        by (apply Z.mod_pos_bound; lia).
      rewrite Heq in Hdm. lia.
    - lia. }
  induction fuel as [|fuel IH]; intros b tail st r st'; simpl;
    destruct (Z.ltb_spec b 2097152) as [Hb|Hb];
    try (intros [= <- <-]; exists []; rewrite Hzero by done;
         destruct st; done);
    destruct (move_to_next_unfinished e tail) as [[] t] eqn:Hm; simpl;
    try (intros [= <- <-]; exists [];
         rewrite (unfinished_from_none _ _ _ Hm), take_nil; destruct st; done);
    try discriminate.
  intros H. inv_result.
  apply IH in H as (us & -> & Hus).
  exists (us ++ [t]). split.
  { unfold with_calls, prio_calls; simpl. rewrite map_app, <- app_assoc. done. }
  rewrite reverse_app, Hus, (unfinished_from_found _ _ _ Hm), (Hsucc b) by done.
  done.
Qed.

(** The urgent sub-window of a completed [jump s n] is made of the next
    undownloaded pieces at or after [s], in ascending order, downloaded
    pieces being skipped: as many as it takes pieces to cover 2 MiB, or
    all that are left when they are fewer. *)
Theorem jump_urgent_window (e : engine) (s n : Z) (st st' : State)
  (new : list engine_call) :
  0 < piece_length (info e) →
  jump e s n st = Ok st' → calls st' = new ++ calls st →
  reverse (window 7 new)
  = take (Z.to_nat ((2097152 + piece_length (info e) - 1) / piece_length (info e)))
      (unfinished_from e s).
Proof.
  intros Hpl H Hnew. unfold jump in H.
  destruct (move_to_next_unfinished e s) as [[] c] eqn:Hm; simpl in H.
  2:{ injection H as <-.
      rewrite <- (app_nil_l (calls st)) in Hnew at 1.
      apply app_inv_tail in Hnew as <-.
      by rewrite (unfinished_from_none _ _ _ Hm), take_nil. }
  assert (unfinished_from e s = unfinished_from e c) as ->.
  { rewrite (unfinished_from_found _ _ _ Hm).
    apply mtnu_found in Hm as (Hc & Hf & _).
    rewrite (unfinished_from_found e c c); [done|].
    apply mtnu_first; [lia|done|intros; lia]. }
  inv_result. destruct a as [r st1].
  apply urgent_loop_exact in Ha as (us & -> & Hus); [|done].
  replace (2097152 - 0 + piece_length (info e) - 1)
    with (2097152 + piece_length (info e) - 1) in Hus by lia.
  rewrite <- Hus. f_equal.
  destruct r as [t|].
  - inv_result. apply normal_loop_spec in H as (k & -> & _).
    simpl in Hnew. rewrite app_assoc in Hnew. apply app_inv_tail in Hnew as <-.
    by rewrite window_prio_calls_other, <- (app_nil_r (prio_calls 7 us)),
      window_prio_calls_same, app_nil_r by lia.
  - injection H as <-. simpl in Hnew. apply app_inv_tail in Hnew as <-.
    by rewrite <- (app_nil_r (prio_calls 7 us)), window_prio_calls_same,
      app_nil_r.
Qed.

Lemma jump_urgent_window_witness :
  ∃ st', jump (have_below 5 ti_video) 3 0 initial_state = Ok st' ∧
         reverse (window 7 (calls st')) = seqZ 5 128.
Proof.
  destruct (jump_total (have_below 5 ti_video) 3 0 initial_state) as [st' Hst'].
  { unfold jump_in_range, INT_MAX. simpl. lia. }
  exists st'. split; [exact Hst'|].
  rewrite (jump_urgent_window (have_below 5 ti_video) 3 0 initial_state st'
             (calls st')).
  - vm_compute. reflexivity.
  - simpl. lia.
  - exact Hst'.
  - by rewrite app_nil_r.
Defined.

(** On a torrent and a read in range (no product or sum [jump] forms
    leaves the [int] range, as for every torrent below 2 GiB with a read of
    moderate size), [jump] runs to its end: no loop fails to terminate and
    no [int] overflows.  It touches neither the pending reads nor the
    namespace, and the cursor, if it moves, moves to a piece of the torrent
    at or after [s]. *)
Theorem jump_completes (e : engine) (s n : Z) (st : State) :
  jump_in_range e s n →
  ∃ st', jump e s n st = Ok st' ∧
    reads st' = reads st ∧ files st' = files st ∧ dirs st' = dirs st ∧
    (cursor st' = cursor st ∨ s ≤ cursor st' < num_pieces (info e)).
Proof.
  intros Hrange. destruct (jump_total e s n st Hrange) as [st' H].
  exists st'. split; [done|].
  destruct (jump_calls e s n st st' H) as (us & ns & _ & H1 & H2 & H3 & _).
  repeat split; try done.
  apply jump_spec in H as [(t & _ & ->)|(c & us' & ns' & Hm & -> & _)];
    [by left|].
  right. apply mtnu_found in Hm as (Hc & _). done.
Qed.

Lemma jump_completes_witness :
  ∃ st', jump (have_below 5 ti_video) 3 4096 initial_state = Ok st' ∧
    reads st' = [] ∧ (cursor st' = 0 ∨ 3 ≤ cursor st' < 256).
Proof.
  destruct (jump_completes (have_below 5 ti_video) 3 4096 initial_state)
    as (st' & H & Hr & _ & _ & Hc).
  - unfold jump_in_range, INT_MAX. simpl. lia.
  - exists st'. split; [exact H|]. split; [exact Hr | exact Hc].
Defined.

(** [advance] never moves the cursor back: along any run of [advance]
    calls the cursor after a call is at or after the cursor before it. *)
Theorem advance_run_cursor_monotone (es : list engine) (st : State)
  (sts : list State) :
  advance_run es st = Ok sts →
  ∀ (j : nat) before after,
    (st :: sts) !! j = Some before → sts !! j = Some after →
    cursor before ≤ cursor after.
Proof.
  revert st sts. induction es as [|e es IH]; intros st sts Hrun j before after
    Hb Ha; simpl in Hrun.
  - injection Hrun as <-. done.
  - inv_result. subst sts. destruct j as [|j]; simpl in *.
    + injection Hb as <-. injection Ha as <-.
      apply advance_cursor in Ha0 as [->|[_ ?]]; lia.
    + by eapply (IH a).
Qed.

Lemma advance_run_cursor_monotone_witness :
  ∃ sts after,
    advance_run [nothing_yet ti_single; have_below 2 ti_single] initial_state
      = Ok sts ∧
    sts !! 1%nat = Some after ∧ 0 ≤ cursor after.
Proof.
  destruct (advance_run [nothing_yet ti_single; have_below 2 ti_single]
              initial_state) as [sts| |] eqn:Hrun;
    [|vm_compute in Hrun; discriminate..].
  assert (Hval := Hrun). vm_compute in Hval. injection Hval as Hval.
  destruct (sts !! 1%nat) as [after|] eqn:Ha; [|by rewrite <- Hval in Ha].
  destruct (sts !! 0%nat) as [before|] eqn:Hb; [|by rewrite <- Hval in Hb].
  exists sts, after. split; [reflexivity|]. split; [done|].
  assert (cursor before = 0) as <-.
  { rewrite <- Hval in Hb. by injection Hb as <-. }
  by apply (advance_run_cursor_monotone
              [nothing_yet ti_single; have_below 2 ti_single] initial_state sts
              Hrun 1%nat before after).
Defined.

(** [advance] settles: after one call, a second call that sees the same
    pieces downloaded leaves the cursor where the first has put it. *)
Theorem advance_twice_same_cursor (e : engine) (st st1 st2 : State) :
  advance e st = Ok st1 → advance e st1 = Ok st2 → cursor st2 = cursor st1.
Proof.
  unfold advance. intros H1 H2.
  apply jump_spec in H1 as [(t & Hm & ->)|(c & us & ns & Hm & -> & _)].
  - apply jump_spec in H2 as [(t' & _ & ->)|(c & us & ns & Hm' & _)]; [done|].
    rewrite Hm in Hm'. discriminate.
  - simpl in H2. apply mtnu_found in Hm as (Hc & Hf & _).
    assert (move_to_next_unfinished e c = (true, c)) as Hmc
      by (apply mtnu_first; [lia|done|intros; lia]).
    apply jump_spec in H2 as [(t' & Hm' & _)|(c' & us' & ns' & Hm' & -> & _)];
      rewrite Hmc in Hm'; [discriminate|]. by injection Hm' as <-.
Qed.

Lemma advance_twice_same_cursor_witness :
  ∃ st1 st2,
    advance (have_below 2 ti_single) initial_state = Ok st1 ∧
    advance (have_below 2 ti_single) st1 = Ok st2 ∧
    cursor st2 = cursor st1 ∧ cursor st1 = 2.
Proof.
  destruct (advance (have_below 2 ti_single) initial_state) as [st1| |] eqn:H1;
    [|vm_compute in H1; discriminate..].
  assert (Hv1 := H1). vm_compute in Hv1. injection Hv1 as Hv1.
  destruct (advance (have_below 2 ti_single) st1) as [st2| |] eqn:H2;
    [|rewrite <- Hv1 in H2; vm_compute in H2; discriminate..].
  exists st1, st2. split; [reflexivity|]. split; [exact H2|]. split.
  - exact (advance_twice_same_cursor _ _ _ _ H1 H2).
  - by rewrite <- Hv1.
Defined.

(** ** Reads *)

Lemma pieces_cover_torrent (ti : torrent_info) :
  valid_torrent ti = true → total_size ti ≤ num_pieces ti * piece_length ti.
Proof.
  intros (Hpl & _ & _ & Hnp & _)%valid_torrent_facts.
  set (pl := piece_length ti) in *. set (tot := total_size ti) in *.
  assert (tot + pl - 1 = pl * ((tot + pl - 1) / pl) + (tot + pl - 1) mod pl)
    as Hdm by (apply Z.div_mod; lia).
  assert (0 ≤ (tot + pl - 1) mod pl < pl) by (apply Z.mod_pos_bound; lia).
  rewrite Hnp. lia.
Qed.

Lemma Read_loop_general (e : engine) (index : Z) (f : file_entry) :
  valid_torrent (info e) = true → file_at (info e) index = Ok f →
  ∀ (fuel : nat) (b offset size : Z),
    0 ≤ offset < fe_size f → 0 < size →
    offset + size ≤ INT_MAX → size ≤ Z.of_nat fuel →
    ∃ i ps t,
      Read_loop e fuel b index offset size = Ok (i :: ps) ∧
      piece (part i) = (fe_offset f + offset) / piece_length (info e) ∧
      tiles (info e) (fe_offset f + offset) b (i :: ps) ∧
      (∀ s0, 0 ≤ s0 → s0 + size ≤ INT_MAX →
             sum_lengths s0 (i :: ps) = Ok (s0 + t)) ∧
      0 < t ≤ size ∧ (t = size ∨ fe_size f ≤ offset + t) ∧
      offset + t < fe_size f + piece_length (info e) ∧
      ((fe_offset f + fe_size f = total_size (info e) ∨
        (fe_offset f + fe_size f) mod piece_length (info e) = 0) →
       offset + t ≤ fe_size f).
Proof.
  intros Hvalid Hf.
  destruct (file_at_Ok _ _ _ Hf) as [Hidx Hlook].
  destruct (valid_torrent_facts _ Hvalid) as (Hpl & Hlaid & Htot & Hnp & Hmax).
  destruct (files_laid_out_lookup _ _ _ _ Hlaid Hlook) as (HA & HF & HAF).
  rewrite <- Htot in HAF.
  pose proof (pieces_cover_torrent _ Hvalid) as Hcover.
  induction fuel as [|fuel IH]; intros b offset size Ho Hs Hint Hfuel; [lia|].
  cbn [Read_loop].
  destruct (Z.leb_spec size 0) as [?|_]; [lia|].
  rewrite Hf, bind_Ok_l.
  destruct (Z.leb_spec (fe_size f) offset) as [?|_]; [lia|].
  set (abs := fe_offset f + offset).
  assert (0 ≤ abs < total_size (info e)) as Habs by (unfold abs; lia).
  destruct (piece_of_byte _ abs Hvalid Habs)
    as (Hq & Hr & Hdm & Hroom & Hps & Hend & Hnext & Hfinal).
  set (q := abs / piece_length (info e)) in *.
  set (r := abs mod piece_length (info e)) in *.
  set (room := piece_size (info e) q - r) in *.
  assert (∃ lenmf, map_file (info e) index offset size
                   = mk_peer_request q r lenmf ∧
                   Z.min room lenmf = Z.min room size) as (lenmf & -> & Hmin).
  { unfold map_file.
    destruct (Z.ltb_spec index 0) as [?|_]; [lia|].
    destruct (Z.leb_spec (num_files (info e)) index) as [?|_]; [lia|].
    cbn [orb]. rewrite Hlook.
    replace (offset + fe_offset f) with abs by (unfold abs; lia).
    destruct (Z.leb_spec (total_size (info e)) abs) as [?|_]; [lia|].
    rewrite Z.quot_div_nonneg, Z.rem_mod_nonneg by lia. fold q r.
    rewrite !(to_int_small q), !(to_int_small r)
      by (unfold INT_MIN, INT_MAX in *; lia).
    eexists. split; [reflexivity|].
    destruct (Z.ltb_spec (total_size (info e)) (abs + size)) as [?|?]; [|done].
    rewrite to_int_small by (unfold INT_MIN, INT_MAX in *; lia). lia. }
  cbn [piece start length]. fold room.
  rewrite (int_in_range room), bind_Ok_l by (unfold INT_MIN, INT_MAX in *; lia).
  cbn [piece start length]. rewrite Hmin.
  set (len := room `min` size).
  assert (0 < len ≤ size ∧ len ≤ room) as Hlen by (unfold len; lia).
  rewrite (int_in_range (size - len)), bind_Ok_l
    by (unfold INT_MIN, INT_MAX in *; lia).
  rewrite (int_in_range (offset + len)), bind_Ok_l
    by (unfold INT_MIN, INT_MAX in *; lia).
  assert ((fe_offset f + fe_size f = total_size (info e) ∨
           (fe_offset f + fe_size f) mod piece_length (info e) = 0) →
          offset + len ≤ fe_size f) as Hexact.
  { intros [Hlast|Hbound]; [unfold abs in *; lia|].
    assert (fe_offset f + fe_size f
            = piece_length (info e)
              * ((fe_offset f + fe_size f) / piece_length (info e))) as Hm.
    { rewrite (Z.div_mod (fe_offset f + fe_size f) (piece_length (info e)))
        at 1 by lia. lia. }
    set (m := (fe_offset f + fe_size f) / piece_length (info e)) in *.
    assert (q + 1 ≤ m) by (unfold abs in *; nia).
    destruct (Z.lt_ge_cases q (num_pieces (info e) - 1)) as [Hlt|Hge].
    - specialize (Hnext Hlt). unfold abs in *. nia.
    - assert (abs + room = total_size (info e)) by (apply Hfinal; lia).
      unfold abs in *. nia. }
  assert (tiles (info e) abs b [new_Part (mk_peer_request q r len) b]) as Hone.
  { simpl. fold room. split_and!; try lia; done. }
  assert (∀ s0, 0 ≤ s0 → s0 + size ≤ INT_MAX →
            sum_lengths s0 [new_Part (mk_peer_request q r len) b]
            = Ok (s0 + len)) as Hsum1.
  { intros s0 H0 H1. simpl.
    by rewrite int_in_range by (unfold INT_MIN, INT_MAX in *; lia). }
  destruct (Z.eq_dec len size) as [Hlast|Hmore].
  - (* the requested length is used up *)
    assert (Read_loop e fuel (b + len) index (offset + len) (size - len) = Ok [])
      as ->.
    { destruct fuel; cbn [Read_loop];
        (destruct (Z.leb_spec (size - len) 0) as [_|?]; [done|lia]). }
    rewrite bind_Ok_l. eexists _, [], len. split; [done|]. split; [done|].
    split; [done|]. split; [done|]. split_and!; lia.
  - destruct (Z.le_gt_cases (fe_size f) (offset + len)) as [Hend'|Hin].
    + (* the end of the file is reached *)
      rewrite (Read_loop_at_end e fuel (b + len) index (offset + len)
                 (size - len) f) by done.
      rewrite bind_Ok_l. eexists _, [], len. split; [done|]. split; [done|].
      split; [done|]. split; [done|]. split_and!; lia.
    + (* the part runs to the end of its piece and the next part follows *)
      assert (len = room) as Hroomlen by (unfold len in *; lia).
      assert (q < num_pieces (info e) - 1) as Hq1.
      { destruct (Z.lt_ge_cases q (num_pieces (info e) - 1)); [done|].
        assert (abs + room = total_size (info e)) by (apply Hfinal; lia).
        unfold abs in *. lia. }
      specialize (Hnext Hq1).
      destruct (IH (b + len) (offset + len) (size - len))
        as (j & ps & t & -> & Hj & Htiles & Hsum & Ht & Hor & Hover & Hex);
        try lia.
      rewrite bind_Ok_l. eexists _, (j :: ps), (len + t).
      split; [done|]. split; [done|].
      replace (fe_offset f + (offset + len)) with (abs + len) in *
        by (unfold abs; lia).
      split.
      { rewrite tiles_cons. cbn [new_Part part buf filled piece start length].
        fold room. split_and!; try lia; try done.
        rewrite Hj, Hroomlen, Hnext. rewrite Z.div_mul by lia. done. }
      split.
      { intros s0 H0 H1. rewrite sum_lengths_cons. cbn [new_Part part length].
        rewrite int_in_range, bind_Ok_l by (unfold INT_MIN, INT_MAX in *; lia).
        rewrite Hsum by lia. f_equal. lia. }
      split; [lia|]. split; [destruct Hor; [left|right]; lia|].
      split; [lia|]. intros HE. specialize (Hex HE). lia.
Qed.

(** The decomposition of a read that starts inside its file, whatever its
    length: [Read::Read] terminates without overflow, and its parts lie
    back to back from the first byte asked for, in the buffer as in the
    torrent, each inside one piece and each next part at the start of the
    next piece.  They add up to at least [min size (fe_size f - offset)]
    and at most [size], and run past the end of the file by less than one
    piece; to exactly [min size (fe_size f - offset)] when the file ends
    the torrent or ends on a piece boundary. *)
Theorem decomposition_tiles (e : engine) (b index offset size : Z)
  (f : file_entry) :
  valid_torrent (info e) = true → file_at (info e) index = Ok f →
  0 ≤ offset < fe_size f → 0 < size → offset + size ≤ INT_MAX →
  ∃ ps t,
    Read_new e b index offset size = Ok (mk_Read ps) ∧
    Read_size (mk_Read ps) = Ok t ∧
    tiles (info e) (fe_offset f + offset) b ps ∧
    Z.min size (fe_size f - offset) ≤ t ≤ size ∧
    offset + t < fe_size f + piece_length (info e) ∧
    ((fe_offset f + fe_size f = total_size (info e) ∨
      (fe_offset f + fe_size f) mod piece_length (info e) = 0) →
     t = Z.min size (fe_size f - offset)).
Proof.
  intros Hvalid Hf Ho Hs Hint. unfold Read_new.
  destruct (Read_loop_general e index f Hvalid Hf (Z.to_nat size) b offset size)
    as (i & ps & t & -> & _ & Htiles & Hsum & Ht & Hor & Hover & Hex); try lia.
  rewrite bind_Ok_l. exists (i :: ps), t. split; [done|].
  split; [unfold Read_size; cbn [parts]; by rewrite Hsum by lia|].
  split; [done|]. split; [lia|]. split; [done|].
  intros HE. specialize (Hex HE). lia.
Qed.

Lemma decomposition_tiles_witness :
  ∃ ps t,
    Read_new (nothing_yet ti_pair) 0 0 49000 5000 = Ok (mk_Read ps) ∧
    Read_size (mk_Read ps) = Ok t ∧
    tiles ti_pair 49000 0 ps ∧ 1000 ≤ t ≤ 5000 ∧ 49000 + t < 50000 + 16384.
Proof.
  destruct (decomposition_tiles (nothing_yet ti_pair) 0 0 49000 5000
              (mk_file_entry "a.bin" 0 50000))
    as (ps & t & H1 & H2 & H3 & H4 & H5 & _).
  - reflexivity.
  - reflexivity.
  - simpl. lia.
  - lia.
  - unfold INT_MAX. lia.
  - exists ps, t. simpl in *. repeat split; try done; lia.
Defined.

Lemma decomposition_inside_file_witness :
  ∃ ps,
    btfs_read_parts (nothing_yet ti_pair) 0 0 20000 10000 = Ok (mk_Read ps) ∧
    Read_size (mk_Read ps) = Ok 20000 ∧ tiles ti_pair 10000 0 ps.
Proof.
  destruct (decomposition_inside_file (nothing_yet ti_pair) 0 0 20000 10000
              (mk_file_entry "a.bin" 0 50000)) as (ps & H1 & H2 & H3).
  - reflexivity.
  - reflexivity.
  - lia.
  - lia.
  - simpl. lia.
  - unfold INT_MAX. lia.
  - exists ps. split; [exact H1|]. split; [exact H2 | exact H3].
Defined.

(** ** Delivery *)

Lemma Read_copy_parts (r : Read) (pc : Z) :
  Forall2 (fun i i' =>
    part i' = part i ∧ buf i' = buf i ∧
    filled i' = filled i || (piece (part i) =? pc))
    (parts r) (parts (Read_copy r pc)).
Proof.
  destruct r as [ps]. unfold Read_copy. simpl.
  induction ps as [|[p bf fl] ps IH]; simpl; constructor; [|done].
  simpl. destruct (piece p =? pc), fl; simpl; auto.
Qed.

Lemma Read_copies_parts (pcs : list Z) (r : Read) :
  Forall2 (fun i i' =>
    part i' = part i ∧ buf i' = buf i ∧
    (filled i' = true ↔ filled i = true ∨ piece (part i) ∈ pcs))
    (parts r) (parts (fold_left Read_copy pcs r)).
Proof.
  revert r. induction pcs as [|pc pcs IH]; intros r; simpl.
  - apply Forall_Forall2_diag, Forall_forall. intros i _.
    split; [done|]. split; [done|]. rewrite elem_of_nil. tauto.
  - eapply Forall2_trans; [|apply Read_copy_parts|apply IH].
    simpl. intros i i' i'' (H1 & H2 & H3) (H4 & H5 & H6).
    split; [congruence|]. split; [congruence|].
    rewrite H6, H3, H1, elem_of_cons, orb_true_iff, Z.eqb_eq. tauto.
Qed.

Lemma Read_copies_finished (pcs : list Z) (r : Read) :
  (Read_finished (fold_left Read_copy pcs r) = true ↔
   ∀ i, i ∈ parts r → filled i = true ∨ piece (part i) ∈ pcs) ∧
  map (fun i => (part i, buf i)) (parts (fold_left Read_copy pcs r))
  = map (fun i => (part i, buf i)) (parts r) ∧
  Read_size (fold_left Read_copy pcs r) = Read_size r.
Proof.
  pose proof (Read_copies_parts pcs r) as H.
  unfold Read_finished, Read_size.
  generalize dependent (parts (fold_left Read_copy pcs r)).
  generalize (parts r). clear r. intros ps ps' H.
  split; [|split].
  - rewrite forallb_forall. induction H as [|i i' ps ps' (_ & _ & Hi) _ IH].
    + split; [by intros _ ? ?%elem_of_nil | by intros _ ? []].
    + split.
      * intros Hall j [->|Hj]%elem_of_cons.
        -- apply Hi, Hall. by left.
        -- apply IH; [|done]. intros x Hx. apply Hall. by right.
      * intros Hall j [<-|Hj]; [apply Hi, Hall; by left|].
        apply IH; [|done]. intros x Hx. apply Hall. by right.
  - induction H as [|i i' ps ps' (H1 & H2 & _) _ IH]; [done|].
    simpl. by rewrite H1, H2, IH.
  - generalize 0. induction H as [|i i' ps ps' (H1 & _) _ IH]; intros s0; [done|].
    simpl. rewrite H1. destruct (int (s0 + length (part i))); simpl; auto.
Qed.

(** A read is finished after the pieces [pcs] have been delivered to it
    exactly when each of its parts either was filled before or lies in one
    of those pieces: the delivery of another piece never completes a read
    that still waits for one, and the delivery of all its pieces always
    does.  In any order, repeated or not, the deliveries leave the pieces,
    offsets, lengths and destinations of the parts, and so the size of the
    read, as they were. *)
Theorem Read_finished_iff_delivered (pcs : list Z) (r : Read) :
  (Read_finished (fold_left Read_copy pcs r) = true ↔
   ∀ i, i ∈ parts r → filled i = true ∨ piece (part i) ∈ pcs) ∧
  map (fun i => (part i, buf i)) (parts (fold_left Read_copy pcs r))
  = map (fun i => (part i, buf i)) (parts r) ∧
  Read_size (fold_left Read_copy pcs r) = Read_size r.
Proof. apply Read_copies_finished. Qed.

Lemma Read_trigger_fields (e : engine) (r : Read) (st : State) :
  Read_trigger e r st
  = with_calls
      (reverse (map read_piece
         (filter (fun pc => have_piece e pc = true)
            (map (fun i => piece (part i)) (parts r))))
       ++ calls st) st.
Proof.
  unfold Read_trigger. destruct r as [ps]. simpl. revert st.
  induction ps as [|i ps IH]; intros st; simpl; [by destruct st|].
  rewrite IH. destruct (have_piece e (piece (part i))) eqn:Hi.
  - rewrite filter_cons_True by done. simpl.
    rewrite reverse_cons, <- app_assoc. done.
  - rewrite filter_cons_False by congruence. by destruct st.
Qed.

(** [Read::trigger] asks for the delivery of the piece of each part that
    lies in a downloaded piece, one request per such part in the order of
    the parts, and does nothing else. *)
Theorem Read_trigger_requests (e : engine) (r : Read) (st : State) :
  Read_trigger e r st
  = with_calls
      (reverse (map read_piece
         (filter (fun pc => have_piece e pc = true)
            (map (fun i => piece (part i)) (parts r))))
       ++ calls st) st.
Proof. apply Read_trigger_fields. Qed.

Lemma deliver_fields (pcs : list Z) (st : State) :
  deliver pcs st
  = set_reads (map (fun ar => (ar.1, fold_left Read_copy pcs ar.2)) (reads st)) st.
Proof.
  unfold deliver. revert st. induction pcs as [|pc pcs IH]; intros st; simpl.
  - destruct st as [c rs fm dm cs]. unfold set_reads. simpl. f_equal.
    induction rs as [|[a r] rs IHrs]; [done|]. simpl. by rewrite <- IHrs.
  - rewrite IH. unfold handle_read_piece_alert, set_reads. simpl. f_equal.
    rewrite map_map. done.
Qed.

Lemma fresh_addr_same_addresses (rs rs' : list (nat * Read)) :
  map fst rs = map fst rs' → fresh_addr rs = fresh_addr rs'.
Proof.
  unfold fresh_addr. intros H. f_equal. revert rs' H.
  induction rs as [|[a r] rs IH]; intros [|[a' r'] rs']; simpl; try done.
  intros [= -> H]. by rewrite (IH rs').
Qed.

Lemma list_find_fresh (rs : list (nat * Read)) (r : Read) :
  list_find (fun ar => ar.1 = fresh_addr rs) (rs ++ [(fresh_addr rs, r)])
  = Some (List.length rs, (fresh_addr rs, r)).
Proof.
  apply list_find_Some. split; [|split].
  - by rewrite lookup_app_r, Nat.sub_diag.
  - done.
  - intros j [a' r'] Hj Hlt. rewrite lookup_app_l in Hj by done.
    apply list_elem_of_lookup_2, fresh_addr_above in Hj. simpl in *. lia.
Qed.

(** A read served from start to end.  A read of [size] bytes that stays
    inside its file registers itself as the one new pending read and waits.
    Once the alert thread has handled the delivery of each of its pieces,
    the woken read returns exactly [size], and the pending reads are the
    ones there were before, the namespace untouched throughout. *)
Theorem read_served (e : engine) (path : string) (b size offset index : Z)
  (f f' : file_entry) (st : State) :
  valid_torrent (info e) = true →
  dirs st !! path = None → files st !! path = Some (f', index) →
  file_at (info e) index = Ok f →
  0 ≤ offset → 0 < size → offset + size ≤ fe_size f →
  offset + size ≤ INT_MAX → jump_in_range e 0 size →
  ∃ st1 r,
    btfs_read e path b size offset st = Ok (Waiting, st1) ∧
    reads st1 = reads st ++ [(fresh_addr (reads st), r)] ∧
    files st1 = files st ∧ dirs st1 = dirs st ∧
    ∃ st3,
      btfs_read_wake (fresh_addr (reads st))
        (deliver (map (fun i => piece (part i)) (parts r)) st1)
      = Ok (Returned size, st3) ∧
      reads st3
      = reads (deliver (map (fun i => piece (part i)) (parts r)) st) ∧
      files st3 = files st ∧ dirs st3 = dirs st.
Proof.
  intros Hvalid Hd Hfile Hf Ho Hs Hin Hint Hrange.
  destruct (Read_loop_inside e index f Hvalid Hf (Z.to_nat size) b offset size)
    as (i & ps & Hloop & _ & Htiles & Hsum); try lia.
  assert (btfs_read_parts e b index size offset = Ok (mk_Read (i :: ps)))
    as Hparts.
  { unfold btfs_read_parts, Read_new. rewrite Hf, bind_Ok_l.
    rewrite !to_int_small by (unfold INT_MIN, INT_MAX in *; lia).
    replace (size `min` fe_size f) with size by lia. by rewrite Hloop. }
  assert (Read_size (mk_Read (i :: ps)) = Ok size) as Hsize.
  { unfold Read_size. cbn [parts]. rewrite Hsum by lia. done. }
  assert (Forall (fun i => filled i = false) (i :: ps)) as Hun
    by (by apply Read_loop_unfilled in Hloop).
  set (r := mk_Read (i :: ps)) in *.
  set (a := fresh_addr (reads st)).
  set (st0 := set_reads (reads st ++ [(a, r)]) st).
  assert (0 ≤ piece (part i)) as Hpiece.
  { rewrite tiles_cons in Htiles. lia. }
  destruct (jump_total e (piece (part i)) size (Read_trigger e r st0))
    as [st1 Hjump].
  { unfold jump_in_range in *. lia. }
  destruct (jump_calls _ _ _ _ _ Hjump) as (us & ns & _ & Hr1 & Hf1 & Hd1 & _).
  rewrite Read_trigger_fields in Hr1, Hf1, Hd1. simpl in Hr1, Hf1, Hd1.
  assert (Read_finished r = false) as Hfin.
  { unfold Read_finished. simpl. apply Forall_cons in Hun as [-> _]. done. }
  exists st1, r. split.
  { unfold btfs_read. rewrite Hd, Hfile, Hparts, bind_Ok_l. fold a st0.
    unfold Read_read. rewrite Hsize, bind_Ok_l.
    destruct (Z.leb_spec size 0) as [?|_]; [lia|].
    cbn [parts r]. rewrite !bind_Ok_l. fold r. rewrite Hjump, bind_Ok_l.
    unfold Read_wait. rewrite Hfin. done. }
  split; [done|]. split; [done|]. split; [done|].
  set (pcs := map (fun i => piece (part i)) (parts r)).
  destruct (Read_copies_finished pcs r) as (Hdone & _ & Hsz).
  assert (Read_finished (fold_left Read_copy pcs r) = true) as Hfin'.
  { apply Hdone. intros j Hj. right. apply list_elem_of_fmap. eauto. }
  set (rs' := map (fun ar : nat * Read => (ar.1, fold_left Read_copy pcs ar.2))
                (reads st)).
  assert (fresh_addr rs' = a) as Hfresh.
  { apply fresh_addr_same_addresses. unfold rs'. rewrite map_map. simpl.
    apply map_ext. done. }
  assert (reads (deliver pcs st1) = rs' ++ [(a, fold_left Read_copy pcs r)])
    as Hreads.
  { rewrite deliver_fields. simpl. rewrite Hr1, map_app. done. }
  eexists. split.
  { unfold btfs_read_wake. rewrite Hreads. rewrite <- Hfresh.
    rewrite list_find_fresh. unfold Read_wait. rewrite Hfin'.
    cbn [negb]. rewrite Hsz, Hsize. reflexivity. }
  rewrite !deliver_fields. simpl. rewrite Hr1, map_app. fold rs'. simpl.
  fold pcs. rewrite <- Hfresh. rewrite remove_fresh. done.
Qed.

Lemma read_served_witness :
  ∃ st1 r,
    btfs_read (nothing_yet ti_pair) "/a.bin" 0 20000 10000 (mounted ti_pair)
    = Ok (Waiting, st1) ∧
    ∃ st3,
      btfs_read_wake (fresh_addr (reads (mounted ti_pair)))
        (deliver (map (fun i => piece (part i)) (parts r)) st1)
      = Ok (Returned 20000, st3).
Proof.
  destruct (read_served (nothing_yet ti_pair) "/a.bin" 0 20000 10000 0
              (mk_file_entry "a.bin" 0 50000) (mk_file_entry "a.bin" 0 50000)
              (mounted ti_pair))
    as (st1 & r & H1 & _ & _ & _ & st3 & H3 & _).
  - reflexivity.
  - vm_compute. reflexivity.
  - vm_compute. reflexivity.
  - reflexivity.
  - lia.
  - lia.
  - simpl. lia.
  - unfold INT_MAX. lia.
  - unfold jump_in_range, INT_MAX. simpl. lia.
  - exists st1, r. split; [exact H1|]. exists st3. exact H3.
Defined.

(** A read woken by the broadcast looks at its own parts only: while one
    of them is unfilled and lies in a piece that has not been delivered,
    it goes back to waiting and changes nothing. *)
Theorem wake_checks_own_parts (a : nat) (k : nat) (r : Read) (pcs : list Z)
  (st : State) :
  list_find (fun ar => ar.1 = a) (reads st) = Some (k, (a, r)) →
  (∃ i, i ∈ parts r ∧ filled i = false ∧ piece (part i) ∉ pcs) →
  btfs_read_wake a (deliver pcs st) = Ok (Waiting, deliver pcs st).
Proof.
  intros Hfind (i & Hi & Hfi & Hpc).
  unfold btfs_read_wake. rewrite deliver_fields at 1. simpl.
  assert (list_find (fun ar : nat * Read => ar.1 = a)
            (map (fun ar : nat * Read => (ar.1, fold_left Read_copy pcs ar.2))
               (reads st))
          = Some (k, (a, fold_left Read_copy pcs r))) as ->.
  { apply list_find_Some in Hfind as (Hk & _ & Hbefore).
    apply list_find_Some. split; [|split; [done|]].
    - change (map ?f ?l) with (f <$> l). by rewrite list_lookup_fmap, Hk.
    - intros j [a' r'] Hj Hlt. change (map ?f ?l) with (f <$> l) in Hj.
      rewrite list_lookup_fmap in Hj.
      destruct (reads st !! j) as [[a'' r'']|] eqn:Hj'; [|done].
      injection Hj as <- _. by apply (Hbefore j (a'', r'')). }
  unfold Read_wait.
  destruct (Read_copies_finished pcs r) as ((Hdone & _) & _).
  destruct (Read_finished (fold_left Read_copy pcs r)) eqn:Hfin; [|done].
  destruct (Hdone eq_refl i Hi) as [?|?]; [congruence|done].
Qed.

Lemma wake_checks_own_parts_witness :
  btfs_read_wake 1
    (deliver [1]
       (mk_State 0 [(1%nat, mk_Read [mk_Part (mk_peer_request 0 0 1000) 0 false])]
          ∅ ∅ []))
  = Ok (Waiting,
        deliver [1]
          (mk_State 0
             [(1%nat, mk_Read [mk_Part (mk_peer_request 0 0 1000) 0 false])]
             ∅ ∅ [])).
Proof.
  apply (wake_checks_own_parts 1 0
           (mk_Read [mk_Part (mk_peer_request 0 0 1000) 0 false])).
  - reflexivity.
  - exists (mk_Part (mk_peer_request 0 0 1000) 0 false).
    split; [by apply elem_of_cons; left|]. split; [reflexivity|].
    intros [H|H%elem_of_nil]%elem_of_cons; [discriminate|done].
Defined.

(** ** Paths and the namespace *)

Lemma string_app_assoc (s1 s2 s3 : string) :
  (s1 +:+ s2) +:+ s3 = s1 +:+ (s2 +:+ s3).
Proof.
  induction s1 as [|c s1 IH]; [done|].
  unfold String.app in *. simpl. by rewrite IH.
Qed.

Lemma string_app_nil_r (s : string) : s +:+ "" = s.
Proof.
  induction s as [|c s IH]; [done|]. unfold String.app in *. simpl.
  by rewrite IH.
Qed.

Lemma slash_free_snoc (s : string) (c : ascii) :
  slash_free s = true → Ascii.eqb c "/" = false →
  slash_free (s +:+ String c "") = true.
Proof.
  intros Hs Hc. induction s as [|d s IH]; unfold String.app in *; simpl in *.
  - by rewrite Hc.
  - apply andb_prop in Hs as [-> Hs]. simpl. by apply IH.
Qed.

Lemma snoc_not_empty (s : string) (c : ascii) : s +:+ String c "" ≠ "".
Proof. by destruct s. Qed.

Lemma strtok_tokens (cur s : string) :
  slash_free cur = true →
  Forall (fun x => x ≠ "" ∧ slash_free x = true) (strtok cur s).
Proof.
  revert cur. induction s as [|c s IH]; intros cur Hcur; simpl.
  - destruct (String.eqb_spec cur ""); repeat constructor; done.
  - destruct (Ascii.eqb c "/") eqn:Hc.
    + destruct (String.eqb_spec cur ""); [by apply IH|].
      constructor; [done|by apply IH].
    + apply IH. by apply slash_free_snoc.
Qed.

Lemma strtok_skip (cur x s : string) :
  slash_free x = true → strtok cur (x +:+ s) = strtok (cur +:+ x) s.
Proof.
  revert cur. induction x as [|c x IH]; intros cur Hx.
  - by rewrite string_app_nil_r.
  - simpl in Hx. apply andb_prop in Hx as [Hc%negb_true_iff Hx].
    change (String c x +:+ s) with (String c (x +:+ s)).
    cbn [strtok]. rewrite Hc, IH by done. f_equal.
    rewrite string_app_assoc. done.
Qed.

(** [strtok] cuts a path into its components: every token it hands out is
    non-empty and free of '/' (so the test [strlen(x) <= 0] of [setup]
    never holds), and a path written as components joined by '/' is cut
    back into exactly these components. *)
Theorem strtok_components (s : string) (xs : list string) :
  Forall (fun x => x ≠ "" ∧ slash_free x = true) (strtok "" s) ∧
  (Forall (fun x => x ≠ "" ∧ slash_free x = true) xs →
   strtok "" (String.concat "/" xs) = xs).
Proof.
  split; [by apply strtok_tokens|].
  induction 1 as [|x xs [Hne Hfree] Hxs IH]; [done|].
  destruct xs as [|y xs].
  - simpl. rewrite <- (string_app_nil_r x) at 1. rewrite strtok_skip by done.
    change ("" +:+ x) with x. simpl. by destruct (String.eqb_spec x "").
  - change (String.concat "/" (x :: y :: xs))
      with (x +:+ String "/" (String.concat "/" (y :: xs))).
    rewrite strtok_skip by done. cbn [strtok]. simpl (Ascii.eqb _ _).
    cbv iota. change ("" +:+ x) with x.
    destruct (String.eqb_spec x ""); [done|]. by rewrite IH.
Qed.

Lemma strtok_components_witness :
  strtok "" (String.concat "/" ["v"; "season 1"; "a.mkv"])
  = ["v"; "season 1"; "a.mkv"].
Proof.
  apply (proj2 (strtok_components "" ["v"; "season 1"; "a.mkv"])).
  repeat constructor; done.
Defined.

Lemma files_after_other (i : Z) (fs : list file_entry)
  (m : gmap string (file_entry * Z)) (k : string) :
  Forall (fun g => "/" +:+ fe_path g ≠ k) fs →
  files_after i fs m !! k = m !! k.
Proof.
  revert i m. induction fs as [|g fs IH]; intros i m Hall; [done|].
  apply Forall_cons in Hall as [Hg Hall]. simpl.
  rewrite IH by done. by rewrite lookup_insert_ne.
Qed.

Lemma files_after_lookup (i : Z) (fs : list file_entry)
  (m : gmap string (file_entry * Z)) (n : nat) (f : file_entry) :
  fs !! n = Some f →
  (∀ (n' : nat) g, (n < n')%nat → fs !! n' = Some g → fe_path g ≠ fe_path f) →
  files_after i fs m !! ("/" +:+ fe_path f) = Some (f, i + Z.of_nat n).
Proof.
  revert i m n. induction fs as [|g fs IH]; intros i m n Hn Hlater; [done|].
  destruct n as [|n]; simpl in *.
  - injection Hn as ->. rewrite files_after_other.
    + rewrite lookup_insert_eq. do 2 f_equal. lia.
    + apply Forall_forall. intros g [j Hj]%list_elem_of_lookup_1 Heq.
      apply (inj (String.app "/")) in Heq.
      apply (Hlater (S j) g); [lia|done|done].
  - rewrite (IH (i + 1) _ n); [do 2 f_equal; lia|done|].
    intros n' g' ? ?. apply (Hlater (S n') g'); [lia|done].
Qed.


(** After [setup] every file of the torrent is found under '/' followed by
    its path, with its entry and its index, provided no later file of the
    torrent has the same path (the later one wins); a key that is no such
    path is as it was before. *)
Theorem setup_files_lookup (e : engine) (st : State) :
  (∀ (n : nat) f,
     ti_files (info e) !! n = Some f →
     (∀ (n' : nat) g, (n < n')%nat → ti_files (info e) !! n' = Some g →
        fe_path g ≠ fe_path f) →
     files (setup e st) !! ("/" +:+ fe_path f) = Some (f, Z.of_nat n)) ∧
  (∀ k, Forall (fun g => "/" +:+ fe_path g ≠ k) (ti_files (info e)) →
        files (setup e st) !! k = files st !! k).
Proof.
  unfold setup. rewrite setup_files_fields. simpl. split.
  - intros n f Hn Hlater. by rewrite (files_after_lookup 0 _ _ n f).
  - intros k Hk. by apply files_after_other.
Qed.

Lemma setup_files_lookup_witness :
  files (setup (nothing_yet ti_pair) initial_state) !! "/b.bin"
  = Some (mk_file_entry "b.bin" 50000 50000, 1).
Proof.
  apply (proj1 (setup_files_lookup (nothing_yet ti_pair) initial_state)
           1%nat (mk_file_entry "b.bin" 50000 50000)).
  - reflexivity.
  - intros [|[|[|n']]] g Hlt Hg; simpl in Hg; try lia; discriminate.
Defined.

Lemma path_ops_lookup (parent : string) (xs : list string) (k : nat)
  (x : string) :
  Forall (fun x => x ≠ "") xs → xs !! k = Some x →
  (dir_key (descend parent (take k xs)), x) ∈ path_ops parent xs.
Proof.
  intros Hall. revert parent k.
  induction Hall as [|y xs Hy _ IH]; intros parent k Hk; [done|].
  simpl. destruct (String.length y <=? 0)%nat eqn:Hlen.
  { destruct y; [done|]. simpl in Hlen. discriminate. }
  destruct k as [|k]; simpl in *.
  - injection Hk as ->. apply elem_of_cons. by left.
  - apply elem_of_cons. right. by apply IH.
Qed.

Lemma dir_has_dirs_after (fs : list file_entry) (d : gmap string (gset string))
  (f : file_entry) (kx : string * string) :
  f ∈ fs → kx ∈ path_ops "" (strtok "" (fe_path f)) →
  dir_has (dirs_after fs d) kx.1 kx.2.
Proof.
  intros Hf Hkx. rewrite dirs_after_ops.
  pose proof (apply_ops_has
    (concat (map (fun f => path_ops "" (strtok "" (fe_path f))) fs)) d) as Hall.
  rewrite Forall_forall in Hall. apply Hall.
  apply list_elem_of_In, in_concat.
  exists (path_ops "" (strtok "" (fe_path f))).
  split; [|by apply list_elem_of_In].
  apply in_map_iff. exists f. split; [done|]. by apply list_elem_of_In.
Qed.

(** After [setup] every directory a file path implies is there and lists
    its child: for the components [x1 / ... / xn] of the path of a file of
    the torrent, the root "/" lists [x1] and the directory
    "/x1/.../xk" lists the next component.  What a directory listed
    before, it lists still. *)
Theorem setup_dirs_chain (e : engine) (st : State) :
  (∀ f (k : nat) x,
     f ∈ ti_files (info e) → strtok "" (fe_path f) !! k = Some x →
     dir_has (dirs (setup e st))
       (dir_key (descend "" (take k (strtok "" (fe_path f))))) x) ∧
  (∀ k x, dir_has (dirs st) k x → dir_has (dirs (setup e st)) k x).
Proof.
  unfold setup. rewrite setup_files_fields. simpl. split.
  - intros f k x Hf Hk.
    apply (dir_has_dirs_after _ _ f (_, x)); [done|].
    apply path_ops_lookup; [|done].
    eapply Forall_impl; [apply (strtok_tokens "" (fe_path f)); done|].
    simpl. tauto.
  - intros k x Hkx. rewrite dirs_after_ops. by apply apply_ops_mono.
Qed.

Lemma setup_dirs_chain_witness :
  dir_has (dirs (setup (nothing_yet ti_video) initial_state)) "/" "v" ∧
  dir_has (dirs (setup (nothing_yet ti_video) initial_state)) "/v" "a.mkv".
Proof.
  pose proof (proj1 (setup_dirs_chain (nothing_yet ti_video) initial_state)
                (mk_file_entry "v/a.mkv" 0 4194304)) as H.
  split.
  - apply (H 0%nat "v"); [by apply elem_of_cons; left | reflexivity].
  - apply (H 1%nat "a.mkv"); [by apply elem_of_cons; left | reflexivity].
Defined.

(** ** The filesystem operations *)

Lemma is_dir_true (path : string) (st : State) :
  is_dir path st = true ↔ is_Some (dirs st !! path).
Proof. unfold is_dir. apply bool_decide_eq_true. Qed.

Lemma is_file_true (path : string) (st : State) :
  is_file path st = true ↔ is_Some (files st !! path).
Proof. unfold is_file. apply bool_decide_eq_true. Qed.

Lemma is_dir_false (path : string) (st : State) :
  is_dir path st = false ↔ dirs st !! path = None.
Proof.
  unfold is_dir. rewrite bool_decide_eq_false, eq_None_not_Some. done.
Qed.

Lemma is_file_false (path : string) (st : State) :
  is_file path st = false ↔ files st !! path = None.
Proof.
  unfold is_file. rewrite bool_decide_eq_false, eq_None_not_Some. done.
Qed.

(** [btfs_readdir] of a directory that is not also a file hands out "."
    and ".." and then the children of the directory: each child once,
    nothing else, in ascending order; the state is as before. *)
Theorem readdir_lists_children (path : string) (names : gset string)
  (st : State) :
  dirs st !! path = Some names → files st !! path = None →
  ∃ l, btfs_readdir path st = (0, "." :: ".." :: l, st) ∧
       (∀ x, x ∈ l ↔ x ∈ names) ∧ NoDup l ∧ StronglySorted String.le l.
Proof.
  intros Hd Hf. exists (in_order names). split; [|split; [|split]].
  - unfold btfs_readdir.
    rewrite (proj2 (is_dir_true path st)) by (rewrite Hd; eauto).
    rewrite (proj2 (is_file_false path st)) by done. simpl. by rewrite Hd.
  - intros x. unfold in_order. rewrite merge_sort_Permutation.
    apply elem_of_elements.
  - unfold in_order. rewrite merge_sort_Permutation. apply NoDup_elements.
  - apply StronglySorted_merge_sort; apply _.
Qed.

Lemma readdir_lists_children_witness :
  ∃ l, btfs_readdir "/" (mounted ti_pair) = (0, "." :: ".." :: l, mounted ti_pair) ∧
       (∀ x, x ∈ l ↔ x ∈ ({[ "a.bin"; "b.bin" ]} : gset string)).
Proof.
  destruct (readdir_lists_children "/" {[ "a.bin"; "b.bin" ]} (mounted ti_pair))
    as (l & H1 & H2 & _).
  - vm_compute. reflexivity.
  - vm_compute. reflexivity.
  - exists l. split; [exact H1 | exact H2].
Defined.

(** [btfs_readdir] writes to the state in one case only: asked for "/"
    while the namespace has no entry for it (as before the metadata
    arrives), [dirs[path]] creates an empty one.  The listing is then "."
    and ".." alone, "/" is a directory from then on, and asking again
    changes nothing more. *)
Theorem readdir_creates_root_only (path : string) (st : State) :
  (btfs_readdir path st).2 = st ∨
  (path = "/" ∧ dirs st !! "/" = None ∧ files st !! "/" = None ∧
   btfs_readdir "/" st = (0, ["."; ".."], set_dirs (<["/" := ∅]> (dirs st)) st) ∧
   is_dir "/" (btfs_readdir "/" st).2 = true ∧
   btfs_readdir "/" (btfs_readdir "/" st).2
   = (0, ["."; ".."], (btfs_readdir "/" st).2)).
Proof.
  unfold btfs_readdir at 1.
  destruct (is_dir path st) eqn:Hd, (is_file path st) eqn:Hf,
    (String.eqb_spec path "/") as [->|Hp]; simpl; try (by left).
  - apply is_dir_true in Hd as [names Hd]. rewrite Hd. by left.
  - apply is_dir_true in Hd as [names Hd]. rewrite Hd. by left.
  - right. apply is_dir_false in Hd. apply is_file_false in Hf.
    assert (btfs_readdir "/" st
            = (0, ["."; ".."], set_dirs (<["/" := ∅]> (dirs st)) st)) as Hrd.
    { unfold btfs_readdir.
      rewrite (proj2 (is_dir_false "/" st)), (proj2 (is_file_false "/" st))
        by done. simpl. by rewrite Hd. }
    rewrite Hrd. simpl. split_and!; try done.
    + apply is_dir_true. simpl. rewrite lookup_insert_eq. eauto.
    + unfold btfs_readdir.
      rewrite (proj2 (is_dir_true "/" _))
        by (simpl; rewrite lookup_insert_eq; eauto).
      rewrite (proj2 (is_file_false "/" _)) by done. simpl.
      rewrite lookup_insert_eq. unfold in_order.
      by rewrite elements_empty.
Qed.

(** [btfs_open] grants read access to files and nothing else: it returns
    0 exactly for a path that is a file, is not a directory, and is opened
    with access mode [O_RDONLY]; every other call returns one of
    [-ENOENT], [-EISDIR], [-EACCES]. *)
Theorem open_grants_read_only (path : string) (flags : Z) (st : State) :
  (btfs_open path flags st = 0 ↔
   is_Some (files st !! path) ∧ dirs st !! path = None ∧
   Z.land flags 3 = O_RDONLY) ∧
  (btfs_open path flags st = 0 ∨ btfs_open path flags st = - ENOENT ∨
   btfs_open path flags st = - EISDIR ∨ btfs_open path flags st = - EACCES).
Proof.
  unfold btfs_open.
  destruct (is_dir path st) eqn:Hd, (is_file path st) eqn:Hf; simpl;
    try apply is_dir_true in Hd as Hd'; try apply is_dir_false in Hd as Hd';
    try apply is_file_true in Hf as Hf'; try apply is_file_false in Hf as Hf'.
  - split; [|auto]. split; [discriminate|]. intros (_ & H & _).
    rewrite H in Hd'. by destruct Hd'.
  - split; [|auto]. split; [discriminate|]. intros (_ & H & _).
    rewrite H in Hd'. by destruct Hd'.
  - destruct (Z.eqb_spec (Z.land flags 3) O_RDONLY) as [Hfl|Hfl]; simpl.
    + split; [|auto]. split; auto.
    + split; [|auto]. split; [discriminate|]. intros (_ & _ & ?). done.
  - split; [|auto]. split; [discriminate|]. intros (H & _).
    rewrite Hf' in H. by destruct H.
Qed.

(** A file of the torrent, once the metadata has arrived: if its path is
    not empty, not the path of a later file and not a directory of the
    namespace, then [btfs_getattr] reports a read-only regular file of the
    size the metadata gives, [btfs_open] for reading succeeds and
    [btfs_readdir] refuses with [-ENOTDIR]. *)
Theorem mounted_file_operations (e : engine) (st : State) (n : nat)
  (f : file_entry) :
  ti_files (info e) !! n = Some f →
  (∀ (n' : nat) g, (n < n')%nat → ti_files (info e) !! n' = Some g →
     fe_path g ≠ fe_path f) →
  fe_path f ≠ "" →
  dirs (setup e st) !! ("/" +:+ fe_path f) = None →
  btfs_getattr ("/" +:+ fe_path f) (setup e st)
  = (0, Some (mk_stat (Z.lor S_IFREG 292) (fe_size f))) ∧
  btfs_open ("/" +:+ fe_path f) O_RDONLY (setup e st) = 0 ∧
  btfs_readdir ("/" +:+ fe_path f) (setup e st) = (- ENOTDIR, [], setup e st).
Proof.
  intros Hn Hlater Hne Hnd.
  assert (files (setup e st) !! ("/" +:+ fe_path f) = Some (f, Z.of_nat n))
    as Hfile.
  { unfold setup. rewrite setup_files_fields. simpl.
    by rewrite (files_after_lookup 0 _ _ n f). }
  assert (is_dir ("/" +:+ fe_path f) (setup e st) = false) as Hd
    by (by apply is_dir_false).
  assert (is_file ("/" +:+ fe_path f) (setup e st) = true) as Hf
    by (apply is_file_true; rewrite Hfile; eauto).
  assert (String.eqb ("/" +:+ fe_path f) "/" = false) as Hroot.
  { apply String.eqb_neq. intros Heq.
    apply (inj (String.app "/") (fe_path f) "") in Heq. done. }
  unfold btfs_getattr, btfs_open, btfs_readdir.
  rewrite Hd, Hf, Hroot, Hfile. done.
Qed.

Lemma mounted_file_operations_witness :
  btfs_getattr "/b.bin" (mounted ti_pair)
  = (0, Some (mk_stat (Z.lor S_IFREG 292) 50000)) ∧
  btfs_open "/b.bin" O_RDONLY (mounted ti_pair) = 0 ∧
  btfs_readdir "/b.bin" (mounted ti_pair) = (- ENOTDIR, [], mounted ti_pair).
Proof.
  apply (mounted_file_operations (nothing_yet ti_pair) initial_state 1%nat
           (mk_file_entry "b.bin" 50000 50000)).
  - reflexivity.
  - intros [|[|[|n']]] g Hlt Hg; simpl in Hg; try lia; discriminate.
  - discriminate.
  - vm_compute. reflexivity.
Defined.

(** ** The alert loop *)

Lemma trigger_all_fields (e : engine) (rs : list (nat * Read)) (st : State) :
  let st' := fold_left (fun st ar => Read_trigger e ar.2 st) rs st in
  cursor st' = cursor st ∧ reads st' = reads st ∧
  files st' = files st ∧ dirs st' = dirs st ∧
  (∀ c, c ∈ calls st → c ∈ calls st') ∧
  ∀ ar i, ar ∈ rs → i ∈ parts ar.2 →
    have_piece e (piece (part i)) = true →
    read_piece (piece (part i)) ∈ calls st'.
Proof.
  revert st. induction rs as [|[a r] rs IH]; intros st; simpl.
  { repeat split; try done. by intros ar i ?%elem_of_nil. }
  destruct (Read_trigger_calls e r st) as (T1 & T2 & T3 & T4 & T5 & T6).
  destruct (IH (Read_trigger e r st)) as (H1 & H2 & H3 & H4 & H5 & H6).
  simpl in *. split_and!; try congruence.
  - intros c Hc. by apply H5, T5.
  - intros ar i [->|Har]%elem_of_cons Hi Hh.
    + apply H5. by apply T6.
    + by apply (H6 ar).
Qed.

Lemma piece_finished_post (e : engine) (st st' : State) :
  handle_piece_finished_alert e st = Ok st' →
  reads st' = reads st ∧ files st' = files st ∧ dirs st' = dirs st ∧
  (cursor st' = cursor st ∨
   have_piece e (cursor st') = false ∧
   cursor st ≤ cursor st' < num_pieces (info e)) ∧
  ∀ ar i, ar ∈ reads st → i ∈ parts ar.2 →
    have_piece e (piece (part i)) = true →
    read_piece (piece (part i)) ∈ calls st'.
Proof.
  unfold handle_piece_finished_alert.
  destruct (trigger_all_fields e (reads st) st) as (T1 & T2 & T3 & T4 & _ & T6).
  intros H. pose proof (advance_cursor _ _ _ H) as Hcur.
  unfold advance in H. apply jump_calls in H as (us & ns & -> & H1 & H2 & H3 & _).
  rewrite T1 in Hcur. split_and!; try congruence.
  intros ar i Har Hi Hh. rewrite !elem_of_app. right. right.
  by apply (T6 ar).
Qed.

(** Handling a finished piece: every pending read is asked again to
    request the delivery of its downloaded pieces, and then the window
    advances.  The pending reads and the namespace are left alone, and the
    cursor stays or moves forward to an undownloaded piece.  The handler
    completes when the torrent is in range and the cursor is a piece
    index. *)
Theorem piece_finished_retriggers (e : engine) (st : State) :
  (jump_in_range e 0 0 → 0 ≤ cursor st →
   ∃ st', handle_piece_finished_alert e st = Ok st') ∧
  ∀ st', handle_piece_finished_alert e st = Ok st' →
    reads st' = reads st ∧ files st' = files st ∧ dirs st' = dirs st ∧
    (cursor st' = cursor st ∨
     have_piece e (cursor st') = false ∧
     cursor st ≤ cursor st' < num_pieces (info e)) ∧
    ∀ ar i, ar ∈ reads st → i ∈ parts ar.2 →
      have_piece e (piece (part i)) = true →
      read_piece (piece (part i)) ∈ calls st'.
Proof.
  split; [|apply piece_finished_post].
  intros Hrange Hc. unfold handle_piece_finished_alert. apply jump_total.
  destruct (trigger_all_fields e (reads st) st) as (-> & _).
  unfold jump_in_range in *. lia.
Qed.

Lemma piece_finished_retriggers_witness :
  ∃ st', handle_piece_finished_alert (have_below 2 ti_single)
           (mk_State 0
              [(1%nat, mk_Read [mk_Part (mk_peer_request 1 0 1000) 0 false])]
              ∅ ∅ []) = Ok st' ∧
         read_piece 1 ∈ calls st'.
Proof.
  destruct (piece_finished_retriggers (have_below 2 ti_single)
              (mk_State 0
                 [(1%nat, mk_Read [mk_Part (mk_peer_request 1 0 1000) 0 false])]
                 ∅ ∅ [])) as [Htot Hpost].
  destruct Htot as [st' Hst'].
  - unfold jump_in_range, INT_MAX. simpl. lia.
  - simpl. lia.
  - exists st'. split; [exact Hst'|].
    destruct (Hpost st' Hst') as (_ & _ & _ & _ & Hreq).
    apply (Hreq (1%nat, mk_Read [mk_Part (mk_peer_request 1 0 1000) 0 false])
             (mk_Part (mk_peer_request 1 0 1000) 0 false)).
    + by apply elem_of_cons; left.
    + by apply elem_of_cons; left.
    + reflexivity.
Defined.




(** ** [btfs_read] and its bookkeeping *)

Lemma Read_read_fields (e : engine) (r : Read) (st : State)
  (out : read_status) (st' : State) :
  Read_read e r st = Ok (out, st') →
  reads st' = reads st ∧ files st' = files st ∧ dirs st' = dirs st.
Proof.
  unfold Read_read. intros H. inv_result.
  destruct (a <=? 0); [by injection H as <- <-|].
  inv_result. unfold Read_wait in H.
  destruct (Read_trigger_calls e r st) as (_ & T2 & T3 & T4 & _).
  apply jump_calls in Ha2 as (us & ns & _ & H1 & H2 & H3 & _).
  destruct (negb (Read_finished r)); inv_result; subst;
    split_and!; congruence.
Qed.

(** [btfs_read] keeps its books.  A path that is unknown gets [-ENOENT]
    and a directory [-EISDIR], with no effect at all.  Otherwise, whenever
    the call returns a value the pending reads are exactly those there
    were before it; whenever it waits, they are those plus this one read,
    at an address no other pending read has.  The namespace is never
    touched, and addresses that were distinct stay distinct. *)
Theorem btfs_read_bookkeeping (e : engine) (path : string) (b size offset : Z)
  (st : State) :
  (dirs st !! path = None → files st !! path = None →
   btfs_read e path b size offset st = Ok (Returned (- ENOENT), st)) ∧
  (is_Some (dirs st !! path) →
   btfs_read e path b size offset st = Ok (Returned (- EISDIR), st)) ∧
  ∀ out st', btfs_read e path b size offset st = Ok (out, st') →
    files st' = files st ∧ dirs st' = dirs st ∧
    (NoDup (map fst (reads st)) → NoDup (map fst (reads st'))) ∧
    match out with
    | Returned _ => reads st' = reads st
    | Waiting =>
        ∃ r, reads st' = reads st ++ [(fresh_addr (reads st), r)] ∧
             fresh_addr (reads st) ∉ map fst (reads st)
    end.
Proof.
  unfold btfs_read. split; [|split].
  - by intros -> ->.
  - by intros [names ->].
  - intros out st'.
    destruct (dirs st !! path) as [names|] eqn:Hd.
    { intros [= <- <-]. done. }
    destruct (files st !! path) as [[f' index]|] eqn:Hf.
    2:{ intros [= <- <-]. done. }
    intros H. inv_result. destruct a0 as [s st2].
    apply Read_read_fields in Ha0 as (H1 & H2 & H3). simpl in H1, H2, H3.
    assert (fresh_addr (reads st) ∉ map fst (reads st)) as Hfresh.
    { intros Hin. apply list_elem_of_In, in_map_iff in Hin as ([a' r'] & Heq & Hin).
      apply list_elem_of_In, fresh_addr_above in Hin. simpl in *. lia. }
    destruct s as [n|]; injection H as <- <-.
    + unfold remove_read, set_reads. simpl. rewrite H1, remove_fresh.
      split_and!; done.
    + split_and!; try done.
      * intros Hnd. rewrite H1, map_app. simpl.
        apply NoDup_app. split; [done|]. split.
        -- intros x Hx [->|?%elem_of_nil]%elem_of_cons; done.
        -- apply NoDup_singleton.
      * eauto.
Qed.

Lemma btfs_read_bookkeeping_witness :
  btfs_read (nothing_yet ti_pair) "/c.bin" 0 100 0 (mounted ti_pair)
  = Ok (Returned (- ENOENT), mounted ti_pair) ∧
  btfs_read (nothing_yet ti_pair) "/" 0 100 0 (mounted ti_pair)
  = Ok (Returned (- EISDIR), mounted ti_pair).
Proof.
  split.
  - apply (proj1 (btfs_read_bookkeeping (nothing_yet ti_pair) "/c.bin" 0 100 0
                    (mounted ti_pair))); vm_compute; reflexivity.
  - apply (proj1 (proj2 (btfs_read_bookkeeping (nothing_yet ti_pair) "/" 0 100 0
                           (mounted ti_pair)))).
    vm_compute. eauto.
Defined.

(** [btfs_getattr] agrees with the other operations: "/" is a directory
    in every state, before the metadata as after; a path [btfs_readdir]
    lists is reported as a directory; a path other than "/" that
    [btfs_open] accepts is reported as a read-only regular file with the
    size the namespace records; and [-ENOENT] is the answer exactly for a
    path other than "/" that is neither a file nor a directory. *)
Theorem getattr_agrees (path : string) (flags : Z) (st : State) :
  btfs_getattr "/" st = (0, Some (mk_stat (Z.lor S_IFDIR 493) 0)) ∧
  ((btfs_readdir path st).1.1 = 0 →
   btfs_getattr path st = (0, Some (mk_stat (Z.lor S_IFDIR 493) 0))) ∧
  (btfs_open path flags st = 0 → path ≠ "/" →
   ∃ f i, files st !! path = Some (f, i) ∧
          btfs_getattr path st
          = (0, Some (mk_stat (Z.lor S_IFREG 292) (fe_size f)))) ∧
  (btfs_getattr path st = (- ENOENT, None) ↔
   path ≠ "/" ∧ dirs st !! path = None ∧ files st !! path = None).
Proof.
  split; [|split; [|split]].
  - unfold btfs_getattr. simpl. by rewrite !andb_false_r.
  - unfold btfs_readdir, btfs_getattr.
    destruct (is_dir path st) eqn:Hd, (is_file path st) eqn:Hf,
      (String.eqb_spec path "/") as [->|Hp]; simpl; try done.
  - unfold btfs_open, btfs_getattr. intros H Hp.
    destruct (is_dir path st) eqn:Hd, (is_file path st) eqn:Hf; simpl in *;
      try done.
    apply is_file_true in Hf as [[f i] Hf]. rewrite Hf.
    destruct (String.eqb_spec path "/") as [->|_]; [done|]. simpl. eauto.
  - unfold btfs_getattr.
    destruct (is_dir path st) eqn:Hd, (is_file path st) eqn:Hf,
      (String.eqb_spec path "/") as [->|Hp]; simpl;
      try apply is_dir_true in Hd as [? Hd']; try apply is_dir_false in Hd;
      try apply is_file_true in Hf as [? Hf']; try apply is_file_false in Hf;
      (split; [try discriminate; try done|]);
      try (intros (? & ? & ?); congruence); try done.
Qed.

Lemma getattr_agrees_witness :
  btfs_getattr "/" initial_state = (0, Some (mk_stat (Z.lor S_IFDIR 493) 0)) ∧
  ∃ f i, files (mounted ti_pair) !! "/a.bin" = Some (f, i) ∧
         btfs_getattr "/a.bin" (mounted ti_pair)
         = (0, Some (mk_stat (Z.lor S_IFREG 292) (fe_size f))).
Proof.
  split.
  - apply (proj1 (getattr_agrees "/" 0 initial_state)).
  - apply (proj1 (proj2 (proj2 (getattr_agrees "/a.bin" 0 (mounted ti_pair))))).
    + vm_compute. reflexivity.
    + discriminate.
Defined.
